(** * qcc: the Tensor base class and the Bernstein-Vazirani oracle

    A shallow embedding of [src/lib/tensor.py] and of the oracle
    construction and secret generation of [src/bernstein.py].

    A numpy array is a shape together with the map from multi-indices to
    elements; the element arithmetic of numpy (complex64, IEEE 754
    binary32 pairs) is an interface, [Numeric], with one instance built
    on the Standard Library's [SpecFloat] at precision 24.  Python
    exceptions are the [Raise] side of a small error monad. *)

From Stdlib Require Import List ZArith Lia Bool Arith PeanoNat.
From Stdlib Require Import Floats.SpecFloat.
Import ListNotations.

Set Implicit Arguments.

(* ================================================================= *)
(** * Python values *)

(** Python's [float] is IEEE 754 binary64. *)
Module PyFloat.
Definition prec : Z := 53.
Definition emax : Z := 1024.
Definition t := spec_float.

Definition of_Z (z : Z) : t := binary_normalize prec emax z 0 false.
Definition add : t -> t -> t := SFadd prec emax.
Definition sub : t -> t -> t := SFsub prec emax.
Definition mul : t -> t -> t := SFmul prec emax.
Definition div : t -> t -> t := SFdiv prec emax.
Definition sqrt : t -> t := SFsqrt prec emax.
Definition abs : t -> t := SFabs.
Definition ltb : t -> t -> bool := SFltb.
Definition leb : t -> t -> bool := SFleb.
Definition eqb : t -> t -> bool := SFeqb.

Definition is_finite (x : t) : bool :=
  match x with
  | S754_zero _ | S754_finite _ _ _ => true
  | _ => false
  end.

(** The literals of the two source files. *)
Definition zero : t := S754_zero false.
Definition one : t := of_Z 1.
Definition half : t := div (of_Z 1) (of_Z 2).
Definition lit_1e_6 : t := div (of_Z 1) (of_Z 1000000).
(** numpy's defaults for [allclose]: [rtol=1e-05], [atol=1e-08]. *)
Definition lit_1e_5 : t := div (of_Z 1) (of_Z 100000).
Definition lit_1e_8 : t := div (of_Z 1) (of_Z 100000000).
End PyFloat.

(** The exceptions the modelled code can raise. *)
Inductive exn : Type :=
| ValueError
| IndexError
| AssertionError.

Inductive result (A : Type) : Type :=
| Ok (a : A)
| Raise (e : exn).

Arguments Ok {A} a.
Arguments Raise {A} e.

Definition bind {A B : Type} (r : result A) (k : A -> result B) : result B :=
  match r with
  | Ok a => k a
  | Raise e => Raise e
  end.

Declare Scope py_scope.
Delimit Scope py_scope with py.
Notation "x <- r ;; k" := (bind r (fun x => k))
  (at level 61, r at next level, right associativity) : py_scope.
Open Scope py_scope.

(* ================================================================= *)
(** * The element arithmetic of numpy *)

(** What [tensor.py] asks of an element of a [tensor_type] array.  The
    arithmetic is numpy's, not the repository's, hence an interface. *)
Class Numeric : Type := {
  complex : Type;                       (* np.complex64 *)
  real : Type;                          (* np.float32 *)
  of_float : PyFloat.t -> complex;      (* a Python float cast to tensor_type *)
  cadd : complex -> complex -> complex;
  csub : complex -> complex -> complex;
  cmul : complex -> complex -> complex;
  cconj : complex -> complex;           (* np.conj *)
  creal : complex -> real;              (* np.real *)
  ceqb : complex -> complex -> bool;    (* == *)
  cgtb : complex -> complex -> bool;    (* > *)
  (** [np.isclose(x, y, rtol, atol)] on one pair of elements. *)
  cisclose : PyFloat.t -> PyFloat.t -> complex -> complex -> bool;
  (** the same on a real scalar against a Python float. *)
  risclose : PyFloat.t -> PyFloat.t -> real -> PyFloat.t -> bool
}.

Section Elements.
Context {N : Numeric}.
Definition czero : complex := of_float PyFloat.zero.
Definition cone : complex := of_float PyFloat.one.

(** Sums accumulate from zero, left to right. *)
Definition csum (xs : list complex) : complex := fold_left cadd xs czero.
End Elements.

(* ================================================================= *)
(** * numpy arrays *)

Section NDArray.
Context {N : Numeric}.

(** An array: its shape and its elements by multi-index.  Only the
    elements at indices inside the shape are part of the array. *)
Record ndarray : Type := mk_ndarray {
  shape : list nat;
  item : list nat -> complex
}.

Definition ndim (a : ndarray) : nat := length (shape a).

(** All multi-indices of a shape, in row-major order. *)
Fixpoint indices (s : list nat) : list (list nat) :=
  match s with
  | [] => [[]]
  | n :: s' => flat_map (fun i => map (cons i) (indices s')) (seq 0 n)
  end.

(** [(p(a)).all()] *)
Definition np_all (p : complex -> bool) (a : ndarray) : bool :=
  forallb (fun idx => p (item a idx)) (indices (shape a)).

Definition np_map (f : complex -> complex) (a : ndarray) : ndarray :=
  {| shape := shape a; item := fun idx => f (item a idx) |}.

Definition np_conj : ndarray -> ndarray := np_map cconj.

(** [a.transpose()] reverses the axes. *)
Definition transpose (a : ndarray) : ndarray :=
  {| shape := rev (shape a); item := fun idx => item a (rev idx) |}.

(** [np.eye(n)] *)
Definition np_eye (n : nat) : ndarray :=
  {| shape := [n; n];
     item := fun idx =>
       match idx with
       | [i; j] => if Nat.eqb i j then cone else czero
       | _ => czero
       end |}.

(** ** Broadcasting *)

(** Shapes are aligned at their last axis; two extents are compatible
    when they are equal or one of them is 1. *)
Fixpoint broadcast_rev (r1 r2 : list nat) : option (list nat) :=
  match r1, r2 with
  | [], r => Some r
  | r, [] => Some r
  | d1 :: r1', d2 :: r2' =>
      match broadcast_rev r1' r2' with
      | None => None
      | Some r =>
          if Nat.eqb d1 d2 then Some (d1 :: r)
          else if Nat.eqb d1 1 then Some (d2 :: r)
          else if Nat.eqb d2 1 then Some (d1 :: r)
          else None
      end
  end.

Definition broadcast_shapes (s1 s2 : list nat) : option (list nat) :=
  option_map (@rev nat) (broadcast_rev (rev s1) (rev s2)).

(** The index into an array of shape [s] that the broadcast index
    [idx] reads. *)
Definition bindex (s idx : list nat) : list nat :=
  map (fun di => if Nat.eqb (fst di) 1 then 0 else snd di)
      (combine s (skipn (length idx - length s) idx)).

(** [np.allclose(a, b, atol=atol)] with the default [rtol];
    raises when the shapes do not broadcast. *)
Definition np_allclose (rtol atol : PyFloat.t) (a b : ndarray) : result bool :=
  match broadcast_shapes (shape a) (shape b) with
  | None => Raise ValueError
  | Some s =>
      Ok (forallb (fun idx => cisclose rtol atol
                                (item a (bindex (shape a) idx))
                                (item b (bindex (shape b) idx)))
                  (indices s))
  end.

(** ** Products *)

(** [np.matmul]: 0-d operands are refused; a 1-d first operand is a
    row, a 1-d second operand a column, and that axis is dropped from
    the result; the leading axes broadcast. *)
Definition np_matmul (a b : ndarray) : result ndarray :=
  match rev (shape a), rev (shape b) with
  | [], _ | _, [] => Raise ValueError
  | ka :: ra, kb :: rb =>
      (* a : batch_a ++ [m; ka], b : batch_b ++ [kb'; p] *)
      let '(m, batch_a, row_a) :=
        match ra with
        | [] => (1, [], true)
        | m :: ba => (m, rev ba, false)
        end in
      let '(kb', p, batch_b, col_b) :=
        match rb with
        | [] => (kb, 1, [], true)
        | k :: bb => (k, kb, rev bb, false)
        end in
      if negb (Nat.eqb ka kb') then Raise ValueError
      else
        match broadcast_shapes batch_a batch_b with
        | None => Raise ValueError
        | Some batch =>
            let nb := length batch in
            Ok {| shape := batch ++ (if row_a then [] else [m])
                                 ++ (if col_b then [] else [p]);
                  item := fun idx =>
                    let bi := firstn nb idx in
                    let rest := skipn nb idx in
                    let i := if row_a then 0 else nth 0 rest 0 in
                    let j := if col_b then 0
                             else nth (if row_a then 0 else 1) rest 0 in
                    csum (map (fun t =>
                      cmul (item a (bindex batch_a bi
                                      ++ (if row_a then [] else [i]) ++ [t]))
                           (item b (bindex batch_b bi
                                      ++ [t] ++ (if col_b then [] else [j]))))
                      (seq 0 ka)) |}
        end
  end.

(** [np.kron]: the shorter shape is padded with leading ones; the
    result extent along each axis is the product of the extents, and
    [kron(a,b)[k] = a[k / s] * b[k mod s]] for [s] the shape of [b]. *)
Definition pad_shape (n : nat) (s : list nat) : list nat :=
  repeat 1 (n - length s) ++ s.

Definition np_kron (a b : ndarray) : ndarray :=
  let n := Nat.max (ndim a) (ndim b) in
  let sa := pad_shape n (shape a) in
  let sb := pad_shape n (shape b) in
  {| shape := map (fun rs => fst rs * snd rs) (combine sa sb);
     item := fun idx =>
       cmul (item a (skipn (n - ndim a)
                       (map (fun ks => fst ks / snd ks) (combine idx sb))))
            (item b (skipn (n - ndim b)
                       (map (fun ks => fst ks mod snd ks) (combine idx sb))))
  |}.

(** ** Reductions *)

(** [np.trace]: the sum along the diagonal of the first two axes; the
    result keeps the remaining axes (none for a matrix). *)
Definition np_trace (a : ndarray) : result ndarray :=
  match shape a with
  | m :: n :: rest =>
      Ok {| shape := rest;
            item := fun idx =>
              csum (map (fun i => item a (i :: i :: idx))
                        (seq 0 (Nat.min m n))) |}
  | _ => Raise ValueError
  end.

(** [a.sum(axis=k)] *)
Definition np_sum (axis : nat) (a : ndarray) : result ndarray :=
  if Nat.ltb axis (ndim a) then
    Ok {| shape := firstn axis (shape a) ++ skipn (S axis) (shape a);
          item := fun idx =>
            csum (map (fun i => item a (firstn axis idx ++ i :: skipn axis idx))
                      (seq 0 (nth axis (shape a) 0))) |}
  else Raise ValueError.

(** The value of an array used as a scalar or as a condition: its one
    element; an array of another size is refused. *)
Definition np_scalar (a : ndarray) : result complex :=
  match indices (shape a) with
  | [idx] => Ok (item a idx)
  | _ => Raise ValueError
  end.
End NDArray.

(* ================================================================= *)
(** * Python control flow *)

(** [range(n)] for an integer [n]: empty when [n <= 0]. *)
Definition py_range (n : Z) : list nat := seq 0 (Z.to_nat n).

(** [for i in xs: acc = body(i, acc)], stopping at the first exception. *)
Fixpoint for_each {A S : Type} (xs : list A) (body : A -> S -> result S)
    (acc : S) : result S :=
  match xs with
  | [] => Ok acc
  | x :: xs' => acc' <- body x acc ;; for_each xs' body acc'
  end.

(** [t[i]] on a tuple or list. *)
Definition py_getitem {A : Type} (t : list A) (i : nat) : result A :=
  match nth_error t i with
  | Some x => Ok x
  | None => Raise IndexError
  end.

(** [l[i] = v] on a list. *)
Fixpoint py_setitem {A : Type} (l : list A) (i : nat) (v : A) : result (list A) :=
  match l, i with
  | [], _ => Raise IndexError
  | _ :: l', O => Ok (v :: l')
  | x :: l', S i' => r <- py_setitem l' i' v ;; Ok (x :: r)
  end.

(* ================================================================= *)
(** * src/lib/tensor.py *)

Section TensorClass.
Context {N : Numeric}.

(** [class Tensor(np.ndarray)]: an array whose elements are of
    [tensor_type]; [Tensor(x)] casts and views, the elements of the
    model are of that type already. *)
Definition Tensor : Type := ndarray.
Definition Tensor_new (input_array : ndarray) : Tensor := input_array.

(** What a method of the class returns when it is not always a Tensor. *)
Inductive pyobj : Type :=
| PyFloat (x : PyFloat.t)
| PyTensor (t : Tensor).

Definition is_close (self arg : Tensor) : result bool :=
  np_allclose PyFloat.lit_1e_5 PyFloat.lit_1e_6 self arg.

Definition is_hermitian (self : Tensor) : result bool :=
  if negb (Nat.eqb (length (shape self)) 2) then Ok false
  else
    s0 <- py_getitem (shape self) 0 ;;
    s1 <- py_getitem (shape self) 1 ;;
    if negb (Nat.eqb s0 s1) then Ok false
    else is_close self (np_conj (transpose self)).

Definition is_unitary (self : Tensor) : result bool :=
  prod <- np_matmul (np_conj (transpose self)) self ;;
  s0 <- py_getitem (shape self) 0 ;;
  is_close (Tensor_new prod) (Tensor_new (np_eye s0)).

Definition is_density (self : Tensor) : result bool :=
  h <- is_hermitian self ;;
  if negb h then Ok false
  else
    tr <- np_trace self ;;
    t <- np_scalar tr ;;
    if cgtb (csub t (of_float PyFloat.one)) (of_float PyFloat.lit_1e_6)
    then Ok false
    else Ok true.

Definition is_pure (self : Tensor) : result bool :=
  d <- is_density self ;;
  if negb d then Raise ValueError
  else
    sq <- np_matmul self self ;;
    tr <- np_trace sq ;;
    tr_rho2 <- np_scalar tr ;;
    Ok (risclose PyFloat.lit_1e_5 PyFloat.lit_1e_8 (creal tr_rho2) PyFloat.one).

(** [int(c1 and c2 and ...)]: the conjuncts are evaluated left to
    right and the first false one ends the evaluation. *)
Definition is_permutation (self : Tensor) : result Z :=
  let x := self in
  if negb (Nat.eqb (ndim x) 2) then Ok 0%Z
  else
    s0 <- py_getitem (shape x) 0 ;;
    s1 <- py_getitem (shape x) 1 ;;
    if negb (Nat.eqb s0 s1) then Ok 0%Z
    else
      cols <- np_sum 0 x ;;
      if negb (np_all (fun v => ceqb v cone) cols) then Ok 0%Z
      else
        rows <- np_sum 1 x ;;
        if negb (np_all (fun v => ceqb v cone) rows) then Ok 0%Z
        else Ok (Z.b2z (np_all (fun v => ceqb v cone || ceqb v czero) x)).

Definition kron (self arg : Tensor) : Tensor :=
  Tensor_new (np_kron self arg).

Definition pow (self : Tensor) (n : Z) : pyobj :=
  if Z.eqb n 0 then PyFloat PyFloat.one
  else
    let t := fold_left (fun t _ => np_kron t self) (py_range (n - 1)) self in
    PyTensor (Tensor_new t).
End TensorClass.

(* ================================================================= *)
(** * The gate library *)

(** Basis states are numbered with qubit 0 as the most significant bit.
    The basis state with the last qubit negated: *)
Definition flip_last (j : nat) : nat :=
  if Nat.even j then j + 1 else j - 1.

(** Qubit [idx] of the basis state [j] of [nbits] qubits. *)
Definition qubit (nbits idx j : nat) : bool :=
  Nat.leb (2 ^ (nbits - 1 - idx)) (j mod 2 ^ (nbits - idx)).

Section Gates.
Context {N : Numeric}.

(** An [ops.Operator] is a Tensor; [*] is [kron] and [@] is
    [np.matmul]. *)
Definition Operator : Type := Tensor.

(** Modelled from the spec: [ops.Identity] is not among the sources.
    "[identity(n)]: the 2^n-dimensional identity operator". *)
Definition Identity (n : nat) : Operator := Tensor_new (np_eye (2 ^ n)).

(** Modelled from the spec: part of [ops.Cnot], below.  Where a
    controlled-NOT over [d + 1] qubits, control on the first and target
    on the last, sends the basis state [c]:
    the last bit is flipped where the first bit is set. *)
Definition cnot_image (d c : nat) : nat :=
  if Nat.leb (2 ^ d) c then flip_last c else c.

(** Modelled from the spec: [ops.Cnot] is not among the sources.
    "a controlled-NOT from qubit [i] to the last qubit", "padded to
    the full n-qubit space via Kronecker identity padding before the
    control-target pair": [Cnot(idx0, idx1)], [idx0 < idx1], is the
    operator on the qubits [idx0 .. idx1] that negates the last one
    where the first one is set, the fixed 0/1 matrix of that gate. *)
Definition Cnot (idx0 idx1 : nat) : Operator :=
  let d := idx1 - idx0 in
  Tensor_new
    {| shape := [2 ^ (d + 1); 2 ^ (d + 1)];
       item := fun idx =>
         match idx with
         | [r; c] => if Nat.eqb r (cnot_image d c) then cone else czero
         | _ => czero
         end |}.
End Gates.

(* ================================================================= *)
(** * src/bernstein.py *)

(** The state of [np.random]: the floats in [0, 1) it is going to return. *)
Definition rng : Type := nat -> PyFloat.t.

(** [np.random.random()] *)
Definition random (g : rng) : PyFloat.t * rng := (g 0, fun k => g (S k)).

(** [int(b)] *)
Definition int_of_bool (b : bool) : Z := Z.b2z b.

Definition make_c (nbits : nat) (g : rng) : result (list Z * rng) :=
  let constant_c := repeat 0%Z nbits in
  for_each (py_range (Z.of_nat nbits - 1))
    (fun idx st =>
       let '(constant_c, g) := st in
       let '(r, g') := random g in
       l <- py_setitem constant_c idx (int_of_bool (PyFloat.ltb r PyFloat.half)) ;;
       Ok (l, g'))
    (constant_c, g).

Section Bernstein.
Context {N : Numeric}.

(** [if constant_c[idx]:] an int is true when it is not zero. *)
Definition truthy (z : Z) : bool := negb (Z.eqb z 0).

Definition make_u (nbits : nat) (constant_c : list Z) : result Operator :=
  op <- for_each (py_range (Z.of_nat nbits - 1))
          (fun idx op =>
             b <- py_getitem constant_c idx ;;
             if truthy b
             then np_matmul (kron (Identity idx) (Cnot idx (nbits - 1))) op
             else Ok op)
          (Identity nbits) ;;
  u <- is_unitary op ;;
  if u then Ok op else Raise AssertionError.
End Bernstein.

(* ================================================================= *)
(** * complex64 *)

(** IEEE 754 binary32 and pairs of it: the element type the module
    fixes, [tensor_type = np.complex64]. *)
Module Binary32.
Definition prec : Z := 24.
Definition emax : Z := 128.
Definition f32 : Type := spec_float.
Definition c64 : Type := (f32 * f32)%type.

(** The nearest binary32 value of a binary64 value. *)
Definition of_float64 (x : PyFloat.t) : f32 :=
  match x with
  | S754_finite s m e => binary_round prec emax s m e
  | _ => x
  end.

Definition add : f32 -> f32 -> f32 := SFadd prec emax.
Definition sub : f32 -> f32 -> f32 := SFsub prec emax.
Definition mul : f32 -> f32 -> f32 := SFmul prec emax.
Definition opp : f32 -> f32 := SFopp.

Definition is_zero (x : f32) : bool :=
  match x with S754_zero _ => true | _ => false end.

Definition is_finite (x : f32) : bool :=
  match x with
  | S754_zero _ | S754_finite _ _ _ => true
  | _ => false
  end.

Definition of_float (x : PyFloat.t) : c64 := (of_float64 x, S754_zero false).

Definition cadd (x y : c64) : c64 := (add (fst x) (fst y), add (snd x) (snd y)).
Definition csub (x y : c64) : c64 := (sub (fst x) (fst y), sub (snd x) (snd y)).
Definition cmul (x y : c64) : c64 :=
  (sub (mul (fst x) (fst y)) (mul (snd x) (snd y)),
   add (mul (fst x) (snd y)) (mul (snd x) (fst y))).
Definition cconj (x : c64) : c64 := (fst x, opp (snd x)).
Definition creal (x : c64) : f32 := fst x.

Definition ceqb (x y : c64) : bool :=
  SFeqb (fst x) (fst y) && SFeqb (snd x) (snd y).

(** numpy orders complex numbers by real part, then imaginary part. *)
Definition cgtb (x y : c64) : bool :=
  SFltb (fst y) (fst x) || (SFeqb (fst x) (fst y) && SFltb (snd y) (snd x)).

(** [abs] of a complex number, the C library's [hypot]: exact when one
    part is zero; otherwise the squares are added and the root is
    taken in binary64, where they cannot overflow, and the result is
    rounded to binary32. *)
Definition cabs (x : c64) : f32 :=
  if is_zero (snd x) then SFabs (fst x)
  else if is_zero (fst x) then SFabs (snd x)
  else of_float64
         (PyFloat.sqrt (PyFloat.add (PyFloat.mul (fst x) (fst x))
                                    (PyFloat.mul (snd x) (snd x)))).

Definition cfinite (x : c64) : bool := is_finite (fst x) && is_finite (snd x).

(** [isclose]: [abs(x - y) <= atol + rtol * abs(y)] where both are
    finite, [x == y] otherwise. *)
Definition cisclose (rtol atol : PyFloat.t) (x y : c64) : bool :=
  if cfinite x && cfinite y
  then SFleb (cabs (csub x y))
             (add (of_float64 atol) (mul (of_float64 rtol) (cabs y)))
  else ceqb x y.

(** A binary32 value is a binary64 value. *)
Definition risclose (rtol atol : PyFloat.t) (x : f32) (y : PyFloat.t) : bool :=
  if is_finite x && PyFloat.is_finite y
  then PyFloat.leb (PyFloat.abs (PyFloat.sub x y))
                   (PyFloat.add atol (PyFloat.mul rtol (PyFloat.abs y)))
  else SFeqb x y.
End Binary32.

#[export] Instance complex64 : Numeric := {|
  complex := Binary32.c64;
  real := Binary32.f32;
  of_float := Binary32.of_float;
  cadd := Binary32.cadd;
  csub := Binary32.csub;
  cmul := Binary32.cmul;
  cconj := Binary32.cconj;
  creal := Binary32.creal;
  ceqb := Binary32.ceqb;
  cgtb := Binary32.cgtb;
  cisclose := Binary32.cisclose;
  risclose := Binary32.risclose
|}.

(** Arrays from rows of elements. *)
Section Literals.
Context {N : Numeric}.

Definition matrix_of (rows : list (list complex)) : Tensor :=
  {| shape := [length rows; length (hd [] rows)];
     item := fun idx =>
       match idx with
       | [i; j] => nth j (nth i rows []) czero
       | _ => czero
       end |}.

(** The elements of a matrix, row by row. *)
Definition rows_of (a : Tensor) : list (list complex) :=
  map (fun i => map (fun j => item a [i; j]) (seq 0 (nth 1 (shape a) 0)))
      (seq 0 (nth 0 (shape a) 0)).
End Literals.

(* ================================================================= *)
(** * The vocabulary of the specification *)

Section SpecWords.
Context {N : Numeric}.

(** "the k-fold Kronecker self-product (a (x) a (x) ... (x) a, k times)":
    the product of a list of factors, taken from the left; there is no
    product of no factor. *)
Definition kron_product (factors : list Tensor) : option Tensor :=
  match factors with
  | [] => None
  | a :: rest => Some (fold_left kron rest a)
  end.

(** "trace - 1.0 > 1e-6" *)
Definition trace_exceeds_one (a : Tensor) : result bool :=
  tr <- np_trace a ;;
  t <- np_scalar tr ;;
  Ok (cgtb (csub t (of_float PyFloat.one)) (of_float PyFloat.lit_1e_6)).

(** "[trace(a @ a)] compared to 1 within default tolerance" *)
Definition purity_test (a : Tensor) : result bool :=
  sq <- np_matmul a a ;;
  tr <- np_trace sq ;;
  t <- np_scalar tr ;;
  Ok (risclose PyFloat.lit_1e_5 PyFloat.lit_1e_8 (creal t) PyFloat.one).

(** The sums of a matrix along a column and along a row. *)
Definition column_sum (a : Tensor) (n j : nat) : complex :=
  csum (map (fun i => item a [i; j]) (seq 0 n)).
Definition row_sum (a : Tensor) (n i : nat) : complex :=
  csum (map (fun j => item a [i; j]) (seq 0 n)).

(** "square, every row and column sums to exactly 1, and every element
    is exactly 0 or 1" *)
Definition permutation_conditions (a : Tensor) : Prop :=
  exists n,
    shape a = [n; n] /\
    (forall j, j < n -> ceqb (column_sum a n j) cone = true) /\
    (forall i, i < n -> ceqb (row_sum a n i) cone = true) /\
    (forall i j, i < n -> j < n ->
       ceqb (item a [i; j]) cone = true \/ ceqb (item a [i; j]) czero = true).

(** An array of zeros. *)
Definition np_zeros (s : list nat) : ndarray :=
  {| shape := s; item := fun _ => czero |}.
End SpecWords.

(** ** Matrices of zeros and ones *)

Section BitMatrices.
Context {N : Numeric}.

(** An element that [== 0], and one that [== 1]. *)
Definition is_zero (x : complex) : Prop := ceqb x czero = true.
Definition is_one (x : complex) : Prop := ceqb x cone = true.

Definition bit_of (b : bool) (x : complex) : Prop :=
  if b then is_one x else is_zero x.

(** A permutation matrix of extent [n]: a square matrix of zeros and
    ones whose column [j] has its one in row [p j], the rows [p j]
    pairwise different. *)
Definition permutation_matrix (a : Tensor) (n : nat) (p : nat -> nat) : Prop :=
  shape a = [n; n] /\
  (forall j, j < n -> p j < n) /\
  (forall j j', j < n -> j' < n -> p j = p j' -> j = j') /\
  (forall i j, i < n -> j < n -> bit_of (Nat.eqb i (p j)) (item a [i; j])).

(** What the element arithmetic does on zeros and ones: all that the
    products of permutation matrices need of it. *)
Class BitArithmetic : Prop := {
  zero_is_zero : is_zero czero;
  one_is_one : is_one cone;
  add_zero_zero : forall x y, is_zero x -> is_zero y -> is_zero (cadd x y);
  add_zero_one : forall x y, is_zero x -> is_one y -> is_one (cadd x y);
  add_one_zero : forall x y, is_one x -> is_zero y -> is_one (cadd x y);
  mul_zero_l : forall x y,
    is_zero x -> is_zero y \/ is_one y -> is_zero (cmul x y);
  mul_zero_r : forall x y,
    is_zero x \/ is_one x -> is_zero y -> is_zero (cmul x y);
  mul_one_one : forall x y, is_one x -> is_one y -> is_one (cmul x y);
  conj_zero : forall x, is_zero x -> is_zero (cconj x);
  conj_one : forall x, is_one x -> is_one (cconj x);
  close_zero : forall x y, is_zero x -> is_zero y ->
    cisclose PyFloat.lit_1e_5 PyFloat.lit_1e_6 x y = true;
  close_one : forall x y, is_one x -> is_one y ->
    cisclose PyFloat.lit_1e_5 PyFloat.lit_1e_6 x y = true
}.
End BitMatrices.

(** ** The oracle of a secret *)

(** "the modulo-2 dot product with [secret_bits]" of the first
    [nbits - 1] qubits of the basis state [j], an entry of the secret
    counting when [make_u] takes it for true. *)
Definition secret_parity (nbits : nat) (constant_c : list Z) (j : nat) : bool :=
  fold_left xorb
    (map (fun idx => truthy (nth idx constant_c 0%Z) && qubit nbits idx j)
         (seq 0 (nbits - 1)))
    false.

(** Where the oracle sends the basis state [j]: the last qubit is
    negated when the dot product is 1. *)
Definition oracle_image (nbits : nat) (constant_c : list Z) (j : nat) : nat :=
  if secret_parity nbits constant_c j then flip_last j else j.

(** A bit, as [make_c] writes them. *)
Definition is_bit (z : Z) : Prop := z = 0%Z \/ z = 1%Z.

(** ** A matrix within the tolerance of [is_unitary] *)

(** The binary32 number [1 + 2^-18]. *)
Definition one_plus_ulps : Binary32.c64 :=
  (S754_finite false 8388640 (-23), S754_zero false).

(** [[[1 + 2^-18, 0], [0, 1 + 2^-18]]] *)
Definition near_identity : Tensor (N := complex64) :=
  matrix_of [[one_plus_ulps; czero]; [czero; one_plus_ulps]].


(* ================================================================= *)
(** * src/bernstein.py, the Deutsch-style oracle and the check *)

(** [enumerate(t)] *)
Definition enumerate {A : Type} (t : list A) : list (nat * A) :=
  combine (seq 0 (length t)) t.

(** [make_oracle_f(c)] returns the closure [f]; [make_oracle_f c] is
    that closure.  Python's [%] with a positive modulus is [Z.modulo]. *)
Definition make_oracle_f (c : list Z) (bit_string : list Z) : result Z :=
  val <- for_each (enumerate bit_string)
           (fun iv val =>
              let '(idx, v) := iv in
              ci <- py_getitem c idx ;;
              Ok (val + ci * v)%Z)
           0%Z ;;
  Ok (val mod 2)%Z.

(** What [check_result] prints: the two [print] calls, with their
    arguments in place of the formatted text. *)
Inductive output : Type :=
| Expect (c : list Z)
| Found (bits : list Z) (p : PyFloat.t).

(** A [state.State] as [check_result] uses it: [psi.prob( *bits)]. *)
Record State : Type := { prob : list Z -> PyFloat.t }.

(** The literal [0.1]: the binary64 number nearest to 1/10,
    [7205759403792794 * 2^-56]. *)
Definition lit_0_1 : PyFloat.t := S754_finite false 7205759403792794 (-56).

(** Modelled from the spec: [helper.bitprod] is not among the sources.
    "produces every bit tuple of length n in a fixed, deterministic
    order": the tuples over 0 and 1 in lexicographic order. *)
Fixpoint bitprod (nbits : nat) : list (list Z) :=
  match nbits with
  | O => [[]]
  | S n => flat_map (fun b => map (cons b) (bitprod n)) [0%Z; 1%Z]
  end.

(** [t == c] on tuples of ints. *)
Definition tuple_eqb (t c : list Z) : bool :=
  if list_eq_dec Z.eq_dec t c then true else false.

(** The loop of [check_result] over the configurations still to visit;
    [out] is what has been printed so far. *)
Fixpoint check_loop (c : list Z) (psi : State) (todo : list (list Z))
    (out : list output) : list output * result unit :=
  match todo with
  | [] => (out, Ok tt)
  | bits :: rest =>
      if PyFloat.ltb lit_0_1 (prob psi bits) then
        let out' := out ++ [Found (removelast bits) (prob psi bits)] in
        if tuple_eqb (removelast bits) c
        then check_loop c psi rest out'
        else (out', Raise AssertionError)
      else check_loop c psi rest out
  end.

Definition check_result (nbits : nat) (c : list Z) (psi : State)
    : list output * result unit :=
  check_loop c psi (bitprod nbits) [Expect c].

(** A state that is surely in the configuration [target]. *)
Definition basis_state (target : list Z) : State :=
  {| prob := fun bits => if tuple_eqb bits target
                         then PyFloat.one else PyFloat.zero |}.

(** ** Words for the properties of the oracle function *)

(** The first [nbits - 1] qubits of the basis state [j], as a tuple of
    bits: the input of the oracle function. *)
Definition input_bits (nbits j : nat) : list Z :=
  map (fun idx => Z.b2z (qubit nbits idx j)) (seq 0 (nbits - 1)).

(** The tuple of [n] bits with a single 1, at [i]. *)
Definition unit_bits (n i : nat) : list Z :=
  map (fun k => Z.b2z (Nat.eqb k i)) (seq 0 n).

(** The bitwise sum modulo 2 of two tuples. *)
Definition xor_bits (x y : list Z) : list Z :=
  map (fun ab => ((fst ab + snd ab) mod 2)%Z) (combine x y).

(** The dot product of the secret with a tuple no longer than it. *)
Fixpoint dot_product (c bit_string : list Z) : Z :=
  match c, bit_string with
  | ci :: c', v :: rest => (ci * v + dot_product c' rest)%Z
  | _, _ => 0%Z
  end.

(** The bit [make_c] makes of a draw. *)
Definition draw_bit (r : PyFloat.t) : Z :=
  int_of_bool (PyFloat.ltb r PyFloat.half).

(** 0.75, a draw that gives the bit 0; 0.0 gives the bit 1. *)
Definition lit_0_75 : PyFloat.t := PyFloat.div (PyFloat.of_Z 3) (PyFloat.of_Z 4).

(** The draws that make [make_c] return the bits [b]. *)
Definition draws_for (b : list Z) : rng :=
  fun k => if Z.eqb (nth k b 0%Z) 1 then PyFloat.zero else lit_0_75.

(* ================================================================= *)
(** * Exactly unitary matrices *)

(** ** Gaussian integers *)

Section GaussianIntegers.
Local Open Scope Z_scope.

(** [a + b i] for integers [a] and [b]. *)
Definition gauss : Type := (Z * Z)%type.
Definition gzero : gauss := (0, 0).
Definition gadd (x y : gauss) : gauss := (fst x + fst y, snd x + snd y).
Definition gmul (x y : gauss) : gauss :=
  (fst x * fst y - snd x * snd y, fst x * snd y + snd x * fst y).
Definition gconj (x : gauss) : gauss := (fst x, - snd x).

(** [f 0 + ... + f (n-1)], in the order of [csum]. *)
Fixpoint gsum (f : nat -> gauss) (n : nat) : gauss :=
  match n with
  | O => gzero
  | S m => gadd (gsum f m) (f m)
  end.



(** The entry [i, j] of [c] times the identity. *)
Definition delta (i j : nat) (c : Z) : gauss :=
  if Nat.eqb i j then (c, 0) else gzero.

(** The entries of [conj(A.T) @ A], of [A @ B] and of [kron(A, B)] for
    matrices of extent [n] (of extent [m] for the second factor of
    [kron]). *)
Definition gram (A : nat -> nat -> gauss) (n i j : nat) : gauss :=
  gsum (fun k => gmul (gconj (A k i)) (A k j)) n.

(** [conj(A.T) @ A] is [c] times the identity: [A / sqrt c] is unitary. *)
Definition scaled_unitary (A : nat -> nat -> gauss) (n : nat) (c : Z) : Prop :=
  forall i j, (i < n)%nat -> (j < n)%nat -> gram A n i j = delta i j c.

(** The matrix of a list of rows. *)
Definition entries_of (rows : list (list gauss)) (i j : nat) : gauss :=
  nth j (nth i rows []) gzero.
End GaussianIntegers.

(** ** Dyadic numbers in binary32 *)

Section DyadicNumbers.
Local Open Scope Z_scope.

(** The binary32 number [k * 2^e], rounded if it is none. *)
Definition dyadic32 (k e : Z) : Binary32.f32 :=
  binary_normalize Binary32.prec Binary32.emax k e false.

(** [x] is the number [k * 2^e], for [k] of at most 24 bits (the
    nearest binary32 number otherwise); a zero of either sign is 0. *)
Definition represents (e : Z) (x : Binary32.f32) (k : Z) : Prop :=
  if Z.eqb k 0 then Binary32.is_zero x = true else x = dyadic32 k e.

Definition crepresents (e : Z) (x : Binary32.c64) (g : gauss) : Prop :=
  represents e (fst x) (fst g) /\ represents e (snd x) (snd g).

(** The complex64 number [(a + b i) * 2^e]. *)
Definition cdyadic (a b e : Z) : Binary32.c64 := (dyadic32 a e, dyadic32 b e).




End DyadicNumbers.

(** An exactly unitary matrix of extent [n]: its entry [i, j] is the
    complex64 number [A i j / 2^s] for Gaussian integers [A i j], and
    the columns of [A / 2^s] are orthonormal, [conj(A.T) @ A] being
    [4^s] times the identity, in exact arithmetic. *)
Definition dyadic_unitary (a : Tensor (N := complex64)) (n s : nat)
    (A : nat -> nat -> gauss) : Prop :=
  shape a = [n; n] /\
  (forall i j, i < n -> j < n ->
     crepresents (- Z.of_nat s) (item a [i; j]) (A i j)) /\
  scaled_unitary A n (4 ^ Z.of_nat s).



(* ================================================================= *)
(** * Indices, broadcasting and shapes *)

Section ShapeFacts.
Context {N : Numeric}.

Lemma in_indices (s idx : list nat) :
  In idx (indices s) <-> Forall2 lt idx s.
Proof.
  revert idx; induction s as [|n s IH]; intros idx; simpl.
  - split.
    + intros [<-|[]]; constructor.
    + intros H; inversion H; auto.
  - rewrite in_flat_map; split.
    + intros (i & Hi & Hin). apply in_map_iff in Hin as (idx' & <- & Hin').
      apply in_seq in Hi. constructor; [lia | now apply IH].
    + intros H; inversion H as [|i n' idx' s' Hlt Hrest]; subst.
      exists i; split; [apply in_seq; lia|].
      apply in_map, IH, Hrest.
Qed.

Lemma in_indices2 (n m : nat) (idx : list nat) :
  In idx (indices [n; m]) <-> exists i j, idx = [i; j] /\ i < n /\ j < m.
Proof.
  rewrite in_indices; split.
  - intros H. inversion H as [|i ? t ? Hi Ht]; subst.
    inversion Ht as [|j ? t' ? Hj Ht']; subst. inversion Ht'; subst.
    now exists i, j.
  - intros (i & j & -> & Hi & Hj). repeat constructor; assumption.
Qed.

Lemma indices_nil_shape : indices [] = [[]].
Proof. reflexivity. Qed.

Lemma broadcast_rev_same (r : list nat) : broadcast_rev r r = Some r.
Proof.
  induction r as [|d r IH]; simpl; [reflexivity|].
  destruct r; simpl in *; rewrite ?IH, Nat.eqb_refl; reflexivity.
Qed.

Lemma broadcast_shapes_same (s : list nat) : broadcast_shapes s s = Some s.
Proof.
  unfold broadcast_shapes. rewrite broadcast_rev_same. simpl.
  now rewrite rev_involutive.
Qed.

Lemma bindex_inside (s idx : list nat) :
  Forall2 lt idx s -> bindex s idx = idx.
Proof.
  intros H. unfold bindex.
  rewrite (Forall2_length H), Nat.sub_diag. simpl.
  induction H as [|i d idx s Hlt _ IH]; simpl; [reflexivity|].
  rewrite IH. destruct (Nat.eqb_spec d 1); [f_equal; lia | reflexivity].
Qed.

(** Two square shapes of different extents, none of them 1, do not
    broadcast. *)
Lemma broadcast_square_mismatch (n m : nat) :
  n <> m -> 1 < n -> 1 < m -> broadcast_shapes [n; n] [m; m] = None.
Proof.
  intros Hne Hn Hm. unfold broadcast_shapes; simpl.
  destruct (Nat.eqb_spec n m); [contradiction|].
  destruct (Nat.eqb_spec n 1); [lia|].
  destruct (Nat.eqb_spec m 1); [lia|]. reflexivity.
Qed.

Lemma forallb_agree {A : Type} (f g : A -> bool) (l : list A) :
  (forall x, In x l -> f x = g x) -> forallb f l = forallb g l.
Proof.
  induction l as [|x l IH]; simpl; intros H; [reflexivity|].
  rewrite (H x), IH; auto.
Qed.

(** [allclose] of two arrays of one shape is the element-wise test. *)
Lemma np_allclose_same_shape (rtol atol : PyFloat.t) (a b : ndarray) :
  shape a = shape b ->
  np_allclose rtol atol a b =
  Ok (forallb (fun idx => cisclose rtol atol (item a idx) (item b idx))
              (indices (shape a))).
Proof.
  intros Hs. unfold np_allclose. rewrite <- Hs, broadcast_shapes_same.
  f_equal. apply forallb_agree. intros idx Hin.
  apply in_indices in Hin. now rewrite (bindex_inside Hin).
Qed.

(** ** The shapes of the products *)

Lemma np_matmul_2d (a b : ndarray) (m k p : nat) :
  shape a = [m; k] -> shape b = [k; p] ->
  np_matmul a b =
  Ok {| shape := [m; p];
        item := fun idx =>
          csum (map (fun t => cmul (item a [nth 0 idx 0; t])
                                   (item b [t; nth 1 idx 0]))
                    (seq 0 k)) |}.
Proof.
  intros Ha Hb. unfold np_matmul. rewrite Ha, Hb. simpl.
  rewrite Nat.eqb_refl. reflexivity.
Qed.

Lemma np_matmul_2d_mismatch (a b : ndarray) (m k k' p : nat) :
  shape a = [m; k] -> shape b = [k'; p] -> k <> k' ->
  np_matmul a b = Raise ValueError.
Proof.
  intros Ha Hb Hne. unfold np_matmul. rewrite Ha, Hb. simpl.
  destruct (Nat.eqb_spec k k'); [contradiction | reflexivity].
Qed.

Lemma np_kron_2d (a b : ndarray) (n1 m1 n2 m2 : nat) :
  shape a = [n1; m1] -> shape b = [n2; m2] ->
  shape (np_kron a b) = [n1 * n2; m1 * m2] /\
  forall i j, item (np_kron a b) [i; j] =
              cmul (item a [i / n2; j / m2]) (item b [i mod n2; j mod m2]).
Proof.
  intros Ha Hb. unfold np_kron, ndim. rewrite Ha, Hb. simpl. auto.
Qed.

Lemma np_trace_2d (a : ndarray) (m n : nat) :
  shape a = [m; n] ->
  (tr <- np_trace a ;; np_scalar tr) =
  Ok (csum (map (fun i => item a [i; i]) (seq 0 (Nat.min m n)))).
Proof.
  intros Ha. unfold np_trace. rewrite Ha. reflexivity.
Qed.
End ShapeFacts.


(* ================================================================= *)
(** * Tensor.pow *)

Section Pow.
Context {N : Numeric}.

(** A loop that ignores its counter is a fold over as many copies of
    anything. *)
Lemma fold_left_counter {A B : Type} (f : A -> A) (b : B) (start len : nat)
    (acc : A) :
  fold_left (fun t (_ : nat) => f t) (seq start len) acc =
  fold_left (fun t (_ : B) => f t) (repeat b len) acc.
Proof.
  revert start acc. induction len as [|len IH]; intros start acc; simpl.
  - reflexivity.
  - apply IH.
Qed.

Lemma fold_left_kron_repeat (a t : Tensor) (len : nat) :
  fold_left (fun t (_ : Tensor) => np_kron t a) (repeat a len) t =
  fold_left kron (repeat a len) t.
Proof.
  revert t. induction len as [|len IH]; intros t; simpl; [reflexivity|].
  apply IH.
Qed.

Lemma pow_positive (a : Tensor) (k : Z) :
  (1 <= k)%Z ->
  pow a k = PyTensor (fold_left kron (repeat a (Z.to_nat (k - 1))) a).
Proof.
  intros Hk. unfold pow.
  destruct (Z.eqb_spec k 0) as [->|_]; [lia|].
  unfold py_range, Tensor_new.
  rewrite (fold_left_counter (fun t => np_kron t a) a).
  now rewrite fold_left_kron_repeat.
Qed.

(** C8. [pow(a, 0)] is the Python float 1.0 and no Tensor; for [k >= 1],
    [pow(a, k)] is the Tensor of the Kronecker product of [k] copies of
    [a], and so [pow(a, 1)] is [a]. *)
Theorem pow_kron_power (a : Tensor) :
  pow a 0 = PyFloat (S754_finite false 4503599627370496 (-52)) /\
  (forall k : Z, (1 <= k)%Z ->
     exists t, kron_product (repeat a (Z.to_nat k)) = Some t /\
               pow a k = PyTensor t) /\
  pow a 1 = PyTensor a /\
  pow a 2 = PyTensor (kron a a) /\
  pow a 3 = PyTensor (kron (kron a a) a).
Proof.
  split; [reflexivity|]. split; [|repeat split; reflexivity].
  intros k Hk. rewrite (pow_positive a Hk).
  replace (Z.to_nat k) with (S (Z.to_nat (k - 1))) by lia.
  simpl. eexists; split; reflexivity.
Qed.

(** C9. For a negative [k] the loop of [pow] has no iteration:
    [pow(a, k)] raises nothing and is [a], as [pow(a, 1)] is. *)
Theorem pow_negative (a : Tensor) (k : Z) :
  (k < 0)%Z -> pow a k = PyTensor a /\ pow a k = pow a 1.
Proof.
  intros Hk. unfold pow.
  destruct (Z.eqb_spec k 0) as [->|_]; [lia|].
  unfold py_range. replace (Z.to_nat (k - 1)) with 0 by lia.
  split; reflexivity.
Qed.

End Pow.

Lemma pow_negative_witness :
  pow (np_zeros [2; 2]) (-3) = PyTensor (np_zeros [2; 2]) /\
  pow (np_zeros [2; 2]) (-3) = pow (np_zeros [2; 2]) 1.
Proof.
  apply (@pow_negative complex64 (np_zeros [2; 2]) (-3)%Z). lia.
Defined.

Lemma pow_kron_power_witness :
  exists t, kron_product (repeat (np_zeros [2; 2]) 2) = Some t /\
            pow (np_zeros [2; 2]) 2 = PyTensor t.
Proof.
  apply (proj1 (proj2 (@pow_kron_power complex64 (np_zeros [2; 2]))) 2%Z). lia.
Defined.

(* ================================================================= *)
(** * The predicates of Tensor *)

Section Predicates.
Context {N : Numeric}.

Lemma forallb_indices1 (f : list nat -> bool) (n : nat) :
  forallb f (indices [n]) = true <-> forall j, j < n -> f [j] = true.
Proof.
  rewrite forallb_forall; split.
  - intros H j Hj. apply H, in_indices. repeat constructor; assumption.
  - intros H idx Hin. apply in_indices in Hin.
    inversion Hin as [|j ? t ? Hj Ht]; subst. inversion Ht; subst. auto.
Qed.

Lemma forallb_indices2 (f : list nat -> bool) (n m : nat) :
  forallb f (indices [n; m]) = true <->
  forall i j, i < n -> j < m -> f [i; j] = true.
Proof.
  rewrite forallb_forall; split.
  - intros H i j Hi Hj. apply H, in_indices2. now exists i, j.
  - intros H idx Hin. apply in_indices2 in Hin as (i & j & -> & Hi & Hj). auto.
Qed.

(** ** is_hermitian *)

(** The guard of [is_hermitian]: anything that is not a square matrix is
    answered [False] before any comparison. *)
Lemma is_hermitian_guard (a : Tensor) :
  (forall n, shape a <> [n; n]) -> is_hermitian a = Ok false.
Proof.
  intros Hns. unfold is_hermitian.
  destruct (shape a) as [|m [|n [|k s]]] eqn:Hs; simpl; try reflexivity.
  destruct (Nat.eqb_spec m n) as [->|Hne]; simpl; [|reflexivity].
  now destruct (Hns n).
Qed.

Lemma is_hermitian_square (a : Tensor) (n : nat) :
  shape a = [n; n] ->
  is_hermitian a =
  Ok (forallb (fun idx => cisclose PyFloat.lit_1e_5 PyFloat.lit_1e_6
                            (item a idx) (cconj (item a (rev idx))))
              (indices [n; n])).
Proof.
  intros Hs. unfold is_hermitian. rewrite Hs. simpl length. simpl negb.
  cbv iota. unfold py_getitem. simpl nth_error. cbv iota. simpl bind.
  rewrite Nat.eqb_refl. simpl negb. cbv iota.
  unfold is_close. rewrite np_allclose_same_shape.
  - rewrite Hs. reflexivity.
  - simpl. now rewrite Hs.
Qed.

Lemma is_hermitian_total (a : Tensor) :
  is_hermitian a = Ok true \/ is_hermitian a = Ok false.
Proof.
  destruct (shape a) as [|m [|n [|k s]]] eqn:Hs;
    try (right; apply is_hermitian_guard; intros n'; rewrite Hs; discriminate).
  destruct (Nat.eq_dec m n) as [->|Hne].
  - rewrite (is_hermitian_square a Hs).
    destruct (forallb _ _); auto.
  - right. apply is_hermitian_guard. intros n'. rewrite Hs.
    intros E; inversion E; subst; contradiction.
Qed.

Lemma is_hermitian_true_square (a : Tensor) :
  is_hermitian a = Ok true -> exists n, shape a = [n; n].
Proof.
  intros H.
  destruct (shape a) as [|m [|n [|k s]]] eqn:Hs;
    try (rewrite is_hermitian_guard in H;
         [discriminate | intros n'; rewrite Hs; discriminate]).
  destruct (Nat.eq_dec m n) as [->|Hne]; [now exists n|].
  rewrite is_hermitian_guard in H; [discriminate|].
  intros n'. rewrite Hs. intros E; inversion E; subst; contradiction.
Qed.

(** ** is_density *)

Lemma trace_exceeds_one_total (a : Tensor) (n : nat) :
  shape a = [n; n] ->
  trace_exceeds_one a = Ok true \/ trace_exceeds_one a = Ok false.
Proof.
  intros Hs. unfold trace_exceeds_one, np_trace. rewrite Hs. simpl.
  destruct (cgtb _ _); auto.
Qed.

Lemma is_density_unfold (a : Tensor) :
  is_density a =
  (h <- is_hermitian a ;;
   if negb h then Ok false
   else e <- trace_exceeds_one a ;; Ok (negb e)).
Proof.
  unfold is_density, trace_exceeds_one.
  destruct (is_hermitian a) as [[|]|e]; simpl; try reflexivity.
  destruct (np_trace a) as [tr|e]; simpl; try reflexivity.
  destruct (np_scalar tr) as [t|e]; simpl; try reflexivity.
  destruct (cgtb _ _); reflexivity.
Qed.

Lemma is_density_total (a : Tensor) :
  is_density a = Ok true \/ is_density a = Ok false.
Proof.
  rewrite is_density_unfold.
  destruct (is_hermitian_total a) as [H|H]; rewrite H; simpl; auto.
  destruct (is_hermitian_true_square a H) as [n Hs].
  destruct (trace_exceeds_one_total a Hs) as [E|E]; rewrite E; simpl; auto.
Qed.

Lemma is_density_iff (a : Tensor) :
  is_density a = Ok true <->
  is_hermitian a = Ok true /\ trace_exceeds_one a = Ok false.
Proof.
  rewrite is_density_unfold. split.
  - destruct (is_hermitian a) as [[|]|e]; simpl; try discriminate.
    destruct (trace_exceeds_one a) as [[|]|e]; simpl; try discriminate. auto.
  - intros [-> ->]. reflexivity.
Qed.

(** ** is_pure *)

Lemma purity_test_total (a : Tensor) (n : nat) :
  shape a = [n; n] -> exists b, purity_test a = Ok b.
Proof.
  intros Hs. unfold purity_test.
  rewrite (np_matmul_2d a a Hs Hs). simpl. eexists; reflexivity.
Qed.

Lemma is_pure_unfold (a : Tensor) :
  is_pure a =
  (d <- is_density a ;; if negb d then Raise ValueError else purity_test a).
Proof. reflexivity. Qed.

(** C5. [is_pure(a)] raises [ValueError] exactly when [is_density(a)] is
    false; when it is true, [is_pure(a)] returns, without raising, the
    result of comparing the real part of [trace(a @ a)] with 1 under
    the default tolerances.  ([is_density] itself never raises; the
    functions only read [a].) *)
Theorem is_pure_domain_error (a : Tensor) :
  (is_pure a = Raise ValueError <-> is_density a = Ok false) /\
  (is_density a = Ok true ->
     exists b, purity_test a = Ok b /\ is_pure a = Ok b) /\
  (is_density a = Ok true \/ is_density a = Ok false).
Proof.
  assert (Htrue : is_density a = Ok true ->
                  exists b, purity_test a = Ok b /\ is_pure a = Ok b).
  { intros Hd. rewrite is_pure_unfold, Hd. simpl.
    apply is_density_iff in Hd as [Hh _].
    destruct (is_hermitian_true_square a Hh) as [n Hs].
    destruct (purity_test_total a Hs) as [b Hb]. exists b; auto. }
  split; [|split; [exact Htrue | apply is_density_total]].
  split.
  - intros Hp. destruct (is_density_total a) as [Hd|Hd]; [|exact Hd].
    destruct (Htrue Hd) as (b & _ & Hb). rewrite Hb in Hp. discriminate.
  - intros Hd. rewrite is_pure_unfold, Hd. reflexivity.
Qed.
End Predicates.

Lemma is_pure_domain_error_witness :
  exists b, purity_test (np_zeros [2; 2]) = Ok b /\
            is_pure (np_zeros [2; 2]) = Ok b.
Proof.
  apply (proj1 (proj2 (@is_pure_domain_error complex64 (np_zeros [2; 2])))).
  vm_compute. reflexivity.
Defined.

(** C4. [is_density(a)] is true exactly when [is_hermitian(a)] is true
    and [trace(a) - 1.0 > 1e-6] is false, and it is false otherwise.
    The test is one-sided: the 2x2 matrix of zeros is Hermitian, its
    trace is 0, and it is classified as a density matrix. *)
Theorem is_density_one_sided :
  (forall (N : Numeric) (a : Tensor),
     (is_density a = Ok true <->
      is_hermitian a = Ok true /\ trace_exceeds_one a = Ok false) /\
     (is_density a = Ok true \/ is_density a = Ok false)) /\
  (is_hermitian (N := complex64) (np_zeros [2; 2]) = Ok true /\
   (tr <- np_trace (N := complex64) (np_zeros [2; 2]) ;; np_scalar tr)
     = Ok czero /\
   is_density (N := complex64) (np_zeros [2; 2]) = Ok true).
Proof.
  split.
  - intros N a. split; [apply is_density_iff | apply is_density_total].
  - repeat split; vm_compute; reflexivity.
Qed.

Section Permutation.
Context {N : Numeric}.

Lemma np_sum_columns (a : Tensor) (n : nat) :
  shape a = [n; n] ->
  exists cols, np_sum 0 a = Ok cols /\ shape cols = [n] /\
               forall j, item cols [j] = column_sum a n j.
Proof.
  intros Hs. unfold np_sum, ndim. rewrite Hs. simpl.
  eexists; split; [reflexivity|]. split; reflexivity.
Qed.

Lemma np_sum_rows (a : Tensor) (n : nat) :
  shape a = [n; n] ->
  exists rows, np_sum 1 a = Ok rows /\ shape rows = [n] /\
               forall i, item rows [i] = row_sum a n i.
Proof.
  intros Hs. unfold np_sum, ndim. rewrite Hs. simpl.
  eexists; split; [reflexivity|]. split; reflexivity.
Qed.

Lemma np_all_vector (p : complex -> bool) (v : ndarray) (n : nat) :
  shape v = [n] ->
  np_all p v = true <-> forall j, j < n -> p (item v [j]) = true.
Proof.
  intros Hs. unfold np_all. rewrite Hs. apply forallb_indices1.
Qed.

Lemma np_all_matrix (p : complex -> bool) (a : ndarray) (n m : nat) :
  shape a = [n; m] ->
  np_all p a = true <->
  forall i j, i < n -> j < m -> p (item a [i; j]) = true.
Proof.
  intros Hs. unfold np_all. rewrite Hs.
  apply (forallb_indices2 (fun idx => p (item a idx))).
Qed.

Lemma is_permutation_guard (a : Tensor) :
  (forall n, shape a <> [n; n]) -> is_permutation a = Ok 0%Z.
Proof.
  intros Hns. unfold is_permutation, ndim.
  destruct (shape a) as [|m [|n [|k s]]] eqn:Hs; simpl; try reflexivity.
  destruct (Nat.eqb_spec m n) as [->|Hne]; simpl; [|reflexivity].
  now destruct (Hns n).
Qed.

Lemma is_permutation_square (a : Tensor) (n : nat) :
  shape a = [n; n] ->
  exists cols rows,
    shape cols = [n] /\ (forall j, item cols [j] = column_sum a n j) /\
    shape rows = [n] /\ (forall i, item rows [i] = row_sum a n i) /\
    is_permutation a =
    Ok (Z.b2z (np_all (fun v => ceqb v cone) cols &&
               np_all (fun v => ceqb v cone) rows &&
               np_all (fun v => ceqb v cone || ceqb v czero) a)).
Proof.
  intros Hs.
  destruct (np_sum_columns a Hs) as (cols & Hc & Hsc & Hic).
  destruct (np_sum_rows a Hs) as (rows & Hr & Hsr & Hir).
  exists cols, rows. repeat (split; [assumption|]).
  unfold is_permutation, ndim. cbv zeta. rewrite Hs, Hc, Hr.
  simpl length. unfold py_getitem. simpl nth_error. cbv iota.
  simpl bind. rewrite !Nat.eqb_refl. simpl negb. cbv iota.
  destruct (np_all _ cols); simpl; [|reflexivity].
  destruct (np_all _ rows); simpl; reflexivity.
Qed.

(** C7. [is_permutation(a)] is 1 exactly when [a] is a square matrix,
    each of its column sums and row sums [== 1], and each of its
    elements [== 1] or [== 0]; it is 0 otherwise.  The comparisons are
    the exact [==]. *)
Theorem is_permutation_exact (a : Tensor) :
  (is_permutation a = Ok 1%Z <-> permutation_conditions a) /\
  (is_permutation a = Ok 1%Z \/ is_permutation a = Ok 0%Z).
Proof.
  assert (Hb : forall b, Ok (Z.b2z b) = Ok 1%Z <-> b = true).
  { intros [|]; split; try reflexivity; discriminate. }
  destruct (shape a) as [|m [|n [|k s]]] eqn:Hs.
  1, 2, 4:
    (assert (Hg : forall n', shape a <> [n'; n'])
       by (intros n'; rewrite Hs; discriminate);
     rewrite (is_permutation_guard a Hg); split; [|auto];
     split; [discriminate|];
     intros (n' & Hn' & _); rewrite Hs in Hn'; discriminate).
  destruct (Nat.eq_dec m n) as [->|Hne].
  - destruct (is_permutation_square a Hs)
      as (cols & rows & Hsc & Hic & Hsr & Hir & ->).
    split; [|destruct (_ && _); simpl; auto].
    rewrite Hb, !andb_true_iff.
    rewrite (np_all_vector _ cols Hsc), (np_all_vector _ rows Hsr).
    rewrite (np_all_matrix _ a Hs).
    unfold permutation_conditions. split.
    + intros [[Hc Hr] Hel]. exists n. split; [exact Hs|].
      split; [|split].
      * intros j Hj. rewrite <- Hic. auto.
      * intros i Hi. rewrite <- Hir. auto.
      * intros i j Hi Hj. apply orb_true_iff. auto.
    + intros (n' & Hn' & Hc & Hr & Hel).
      rewrite Hs in Hn'. inversion Hn'; subst n'.
      split; [split|].
      * intros j Hj. rewrite Hic. auto.
      * intros i Hi. rewrite Hir. auto.
      * intros i j Hi Hj. apply orb_true_iff. auto.
  - assert (Hg : forall n', shape a <> [n'; n']).
    { intros n'. rewrite Hs. intros E; inversion E; subst; contradiction. }
    rewrite (is_permutation_guard a Hg). split; [|auto].
    split; [discriminate|].
    intros (n' & Hn' & _). destruct (Hg n' Hn').
Qed.
End Permutation.

(* ================================================================= *)
(** * is_unitary on matrices that are not square *)

Section UnitaryShape.
Context {N : Numeric}.

(** The product [conj(a.T) @ a] of an m-by-n matrix is n-by-n. *)
Lemma gram_matrix (a : Tensor) (m n : nat) :
  shape a = [m; n] ->
  np_matmul (np_conj (transpose a)) a =
  Ok {| shape := [n; n];
        item := fun idx =>
          csum (map (fun t => cmul (cconj (item a [t; nth 0 idx 0]))
                                   (item a [t; nth 1 idx 0]))
                    (seq 0 m)) |}.
Proof.
  intros Hs.
  rewrite (@np_matmul_2d _ (np_conj (transpose a)) a n m n);
    [reflexivity | simpl; now rewrite Hs | exact Hs].
Qed.

Lemma is_unitary_matrix (a : Tensor) (m n : nat) (g : ndarray) :
  shape a = [m; n] ->
  np_matmul (np_conj (transpose a)) a = Ok g ->
  is_unitary a = is_close g (np_eye m).
Proof.
  intros Hs Hg. unfold is_unitary. rewrite Hg, Hs. reflexivity.
Qed.

(** C10. [is_hermitian] answers [False] for whatever is not a square
    matrix; [is_unitary] has no such guard: on an m-by-n matrix with
    [m <> n] and both above 1 the n-by-n product does not broadcast
    against the m-by-m identity and the comparison raises.  The 2-by-3
    matrix of zeros is one such input. *)
Theorem is_unitary_no_shape_guard :
  (forall a : Tensor,
     (forall n, shape a <> [n; n]) -> is_hermitian a = Ok false) /\
  (forall (a : Tensor) (m n : nat),
     shape a = [m; n] -> m <> n -> 1 < m -> 1 < n ->
     is_unitary a = Raise ValueError) /\
  (exists a : Tensor,
     shape a = [2; 3] /\ is_unitary a = Raise ValueError /\
     is_hermitian a = Ok false).
Proof.
  assert (H2 : forall (a : Tensor) (m n : nat),
             shape a = [m; n] -> m <> n -> 1 < m -> 1 < n ->
             is_unitary a = Raise ValueError).
  { intros a m n Hs Hne Hm Hn.
    rewrite (is_unitary_matrix a Hs (gram_matrix a Hs)).
    unfold is_close, np_allclose. simpl shape.
    rewrite broadcast_square_mismatch; auto. }
  split; [exact is_hermitian_guard|]. split; [exact H2|].
  exists (np_zeros [2; 3]). split; [reflexivity|]. split.
  - apply (H2 _ 2 3); [reflexivity | lia | lia | lia].
  - apply is_hermitian_guard. simpl. intros n E. inversion E. lia.
Qed.
End UnitaryShape.

Lemma is_unitary_no_shape_guard_witness :
  is_unitary (N := complex64) (np_zeros [3; 2]) = Raise ValueError.
Proof.
  apply (proj1 (proj2 (@is_unitary_no_shape_guard complex64))
           (np_zeros [3; 2]) 3 2); [reflexivity | lia | lia | lia].
Defined.

(* ================================================================= *)
(** * make_c *)

Lemma py_setitem_inside {A : Type} (l : list A) (i : nat) (v d : A) :
  i < length l ->
  exists l', py_setitem l i v = Ok l' /\ length l' = length l /\
             nth i l' d = v /\
             forall j, j <> i -> nth j l' d = nth j l d.
Proof.
  revert i. induction l as [|x l IH]; intros i Hi; simpl in Hi; [lia|].
  destruct i as [|i]; simpl.
  - eexists; split; [reflexivity|]. repeat split.
    intros [|j] Hj; [contradiction | reflexivity].
  - destruct (IH i) as (l' & -> & Hlen & Hv & Hother); [lia|]. simpl.
    eexists; split; [reflexivity|]. simpl. repeat split; auto.
    intros [|j] Hj; [reflexivity|]. apply Hother. congruence.
Qed.

(** The loop of [make_c] writes below [last] only, and bits only. *)
Lemma make_c_loop (last : nat) (idxs : list nat) (c : list Z) (g : rng) :
  Forall (fun idx => idx < last) idxs ->
  length c = S last -> nth last c 1%Z = 0%Z -> Forall is_bit c ->
  exists c' g',
    for_each idxs
      (fun idx st =>
         let '(constant_c, g) := st in
         let '(r, g') := random g in
         l <- py_setitem constant_c idx
                (int_of_bool (PyFloat.ltb r PyFloat.half)) ;;
         Ok (l, g'))
      (c, g) = Ok (c', g') /\
    length c' = S last /\ nth last c' 1%Z = 0%Z /\ Forall is_bit c'.
Proof.
  intros Hidx. revert c g.
  induction Hidx as [|idx idxs Hlt _ IH]; intros c g Hlen Hlast Hbits; simpl.
  - exists c, g. auto.
  - set (v := int_of_bool (PyFloat.ltb (g 0) PyFloat.half)).
    destruct (@py_setitem_inside _ c idx v 1%Z) as (l & -> & Hl & Hv & Hother);
      [lia|]. simpl.
    apply IH.
    + lia.
    + rewrite Hother; [assumption | lia].
    + apply Forall_forall. intros z Hz.
      destruct (In_nth _ _ 1%Z Hz) as (j & Hj & <-).
      destruct (Nat.eq_dec j idx) as [->|Hne].
      * rewrite Hv. unfold v, int_of_bool.
        destruct (PyFloat.ltb _ _); [right | left]; reflexivity.
      * rewrite Hother by assumption.
        rewrite Forall_forall in Hbits. apply Hbits, nth_In. lia.
Qed.

(** C2, as the code has it.  [make_c(n)] for [n >= 1] returns [n] bits
    and never raises, and its last bit is 0 whatever [np.random]
    returns: the loop runs over [range(nbits - 1)] and leaves the last
    entry of [[0] * nbits] as it is. *)
Theorem make_c_last_bit_zero (n : nat) (g : rng) :
  exists c g',
    make_c (S n) g = Ok (c, g') /\
    length c = S n /\ Forall is_bit c /\ nth n c 1%Z = 0%Z.
Proof.
  unfold make_c, py_range.
  replace (Z.to_nat (Z.of_nat (S n) - 1)) with n by lia.
  destruct (@make_c_loop n (seq 0 n) (repeat 0%Z (S n)) g)
    as (c & g' & Hrun & Hlen & Hlast & Hbits).
  - apply Forall_forall. intros idx Hin. apply in_seq in Hin. lia.
  - apply repeat_length.
  - apply nth_repeat_lt. lia.
  - apply Forall_forall. intros z Hz. apply repeat_spec in Hz. now left.
  - exists c, g'. auto.
Qed.

(** At one bit no draw is made at all: the secret is [(0,)]. *)
Lemma make_c_one_bit (g : rng) : make_c 1 g = Ok ([0%Z], g).
Proof. reflexivity. Qed.

(* ================================================================= *)
(** * Sums and products of zeros and ones *)

Section BitSums.
Context {N : Numeric} {B : BitArithmetic}.

Lemma is_bit_elt (b : bool) (x : complex) :
  bit_of b x -> is_zero x \/ is_one x.
Proof. destruct b; simpl; auto. Qed.

Lemma fold_zeros (l : list complex) (acc : complex) :
  is_zero acc -> Forall is_zero l -> is_zero (fold_left cadd l acc).
Proof.
  intros Hacc Hl. revert acc Hacc.
  induction Hl as [|x l Hx _ IH]; intros acc Hacc; simpl; [assumption|].
  apply IH, add_zero_zero; assumption.
Qed.

Lemma fold_zeros_after_one (l : list complex) (acc : complex) :
  is_one acc -> Forall is_zero l -> is_one (fold_left cadd l acc).
Proof.
  intros Hacc Hl. revert acc Hacc.
  induction Hl as [|x l Hx _ IH]; intros acc Hacc; simpl; [assumption|].
  apply IH, add_one_zero; assumption.
Qed.

Lemma csum_zeros (l : list complex) : Forall is_zero l -> is_zero (csum l).
Proof. apply fold_zeros, zero_is_zero. Qed.

Lemma csum_single_one (l1 l2 : list complex) (x : complex) :
  Forall is_zero l1 -> is_one x -> Forall is_zero l2 ->
  is_one (csum (l1 ++ x :: l2)).
Proof.
  intros H1 Hx H2. unfold csum. rewrite fold_left_app. simpl.
  apply fold_zeros_after_one; [|assumption].
  apply add_zero_one; [|assumption].
  apply fold_zeros; [apply zero_is_zero | assumption].
Qed.

(** A sum over [range(n)] of zeros is zero. *)
Lemma csum_range_zero (f : nat -> complex) (n : nat) :
  (forall k, k < n -> is_zero (f k)) -> is_zero (csum (map f (seq 0 n))).
Proof.
  intros H. apply csum_zeros, Forall_forall. intros x Hx.
  apply in_map_iff in Hx as (k & <- & Hk). apply in_seq in Hk. apply H. lia.
Qed.

(** A sum over [range(n)] of zeros and a single one is one. *)
Lemma csum_range_one (f : nat -> complex) (n k0 : nat) :
  k0 < n -> is_one (f k0) ->
  (forall k, k < n -> k <> k0 -> is_zero (f k)) ->
  is_one (csum (map f (seq 0 n))).
Proof.
  intros Hk0 Hone Hzero.
  replace n with (k0 + S (n - S k0)) by lia.
  rewrite seq_app, map_app. simpl.
  apply csum_single_one; [|assumption|].
  - apply Forall_forall. intros x Hx.
    apply in_map_iff in Hx as (k & <- & Hk). apply in_seq in Hk.
    apply Hzero; lia.
  - apply Forall_forall. intros x Hx.
    apply in_map_iff in Hx as (k & <- & Hk). apply in_seq in Hk.
    apply Hzero; lia.
Qed.

Lemma mul_bits (b1 b2 : bool) (x y : complex) :
  bit_of b1 x -> bit_of b2 y -> bit_of (b1 && b2) (cmul x y).
Proof.
  destruct b1, b2; simpl; intros Hx Hy.
  - now apply mul_one_one.
  - apply mul_zero_r; auto.
  - apply mul_zero_l; auto.
  - apply mul_zero_l; auto.
Qed.
End BitSums.

(* ================================================================= *)
(** * Products of permutation matrices *)

Section PermutationAlgebra.
Context {N : Numeric} {B : BitArithmetic}.

(** A sum of products [x_t * y_t] where [x_t] is a bit and [y_t] is one
    at [t = k0] only, is the bit [x_k0]. *)
Lemma csum_select (x y : nat -> complex) (bx : nat -> bool) (n k0 : nat) :
  k0 < n ->
  (forall t, t < n -> bit_of (bx t) (x t)) ->
  (forall t, t < n -> bit_of (Nat.eqb t k0) (y t)) ->
  bit_of (bx k0) (csum (map (fun t => cmul (x t) (y t)) (seq 0 n))).
Proof.
  intros Hk0 Hx Hy.
  assert (Hterm : forall t, t < n ->
            bit_of (bx t && Nat.eqb t k0) (cmul (x t) (y t)))
    by (intros t Ht; apply mul_bits; auto).
  destruct (bx k0) eqn:Hb; simpl.
  - apply csum_range_one with (k0 := k0); [assumption| |].
    + specialize (Hterm k0 Hk0). now rewrite Hb, Nat.eqb_refl in Hterm.
    + intros t Ht Hne. specialize (Hterm t Ht).
      apply Nat.eqb_neq in Hne. now rewrite Hne, andb_false_r in Hterm.
  - apply csum_range_zero. intros t Ht. specialize (Hterm t Ht).
    destruct (Nat.eq_dec t k0) as [E|Hne].
    + subst t. now rewrite Hb in Hterm.
    + apply Nat.eqb_neq in Hne. now rewrite Hne, andb_false_r in Hterm.
Qed.

(** [a @ b] of two permutation matrices is the permutation matrix of
    the composed map. *)
Lemma matmul_permutation (a b : Tensor) (n : nat) (p q : nat -> nat) :
  permutation_matrix a n p -> permutation_matrix b n q ->
  exists c, np_matmul a b = Ok c /\
            permutation_matrix c n (fun j => p (q j)).
Proof.
  intros (Hsa & Hpr & Hpi & Hpa) (Hsb & Hqr & Hqi & Hqb).
  rewrite (np_matmul_2d a b Hsa Hsb). eexists; split; [reflexivity|].
  split; [reflexivity|]. split; [auto|]. split.
  - intros j j' Hj Hj' E. apply Hqi; auto.
  - intros i j Hi Hj. simpl.
    apply (csum_select (fun t => item a [i; t]) (fun t => item b [t; j])
             (fun t => Nat.eqb i (p t)) (Hqr j Hj)); auto.
Qed.

(** Division and remainder by the extent of the second factor split an
    index of a Kronecker product. *)
Lemma split_index (m x y i : nat) :
  y < m -> (i = x * m + y <-> i / m = x /\ i mod m = y).
Proof.
  intros Hy. split.
  - intros ->. split.
    + rewrite Nat.div_add_l by lia. rewrite Nat.div_small by lia. lia.
    + rewrite Nat.add_comm, Nat.Div0.mod_add. now apply Nat.mod_small.
  - intros [<- <-]. rewrite (Nat.div_mod_eq i m) at 1. lia.
Qed.

Lemma mul_add_inj (m x y x' y' : nat) :
  y < m -> y' < m -> x * m + y = x' * m + y' -> x = x' /\ y = y'.
Proof.
  intros Hy Hy' E. destruct (Nat.lt_trichotomy x x') as [H|[H|H]]; nia.
Qed.

Lemma split_index_bounds (n m i : nat) :
  i < n * m -> i / m < n /\ i mod m < m.
Proof.
  intros Hi. assert (Hm : m <> 0) by (intros ->; lia). split.
  - apply Nat.Div0.div_lt_upper_bound. lia.
  - now apply Nat.mod_upper_bound.
Qed.

(** [kron(a, b)] of two permutation matrices is the permutation matrix
    of the map that acts with [p] on the quotient and with [q] on the
    remainder. *)
Lemma kron_permutation (a b : Tensor) (n m : nat) (p q : nat -> nat) :
  permutation_matrix a n p -> permutation_matrix b m q ->
  permutation_matrix (kron a b) (n * m)
    (fun j => p (j / m) * m + q (j mod m)).
Proof.
  intros (Hsa & Hpr & Hpi & Hpa) (Hsb & Hqr & Hqi & Hqb).
  destruct (np_kron_2d a b Hsa Hsb) as [Hs Hit].
  unfold kron, Tensor_new. split; [exact Hs|]. split; [|split].
  - intros j Hj. destruct (split_index_bounds _ _ Hj) as [Hd Hr].
    specialize (Hpr _ Hd). specialize (Hqr _ Hr). nia.
  - intros j j' Hj Hj' E.
    destruct (split_index_bounds _ _ Hj) as [Hd Hr].
    destruct (split_index_bounds _ _ Hj') as [Hd' Hr'].
    destruct (@mul_add_inj m (p (j / m)) (q (j mod m)) (p (j' / m)) (q (j' mod m)))
      as [E1 E2]; auto.
    assert (E1' : j / m = j' / m) by (apply Hpi; auto; lia).
    assert (E2' : j mod m = j' mod m) by (apply Hqi; auto).
    rewrite (Nat.div_mod_eq j m), (Nat.div_mod_eq j' m). congruence.
  - intros i j Hi Hj. rewrite Hit.
    destruct (split_index_bounds _ _ Hi) as [Hdi Hri].
    destruct (split_index_bounds _ _ Hj) as [Hdj Hrj].
    assert (Hbit := mul_bits _ _ _ _ (Hpa _ _ Hdi Hdj) (Hqb _ _ Hri Hrj)).
    replace (Nat.eqb i (p (j / m) * m + q (j mod m)))
      with (Nat.eqb (i / m) (p (j / m)) && Nat.eqb (i mod m) (q (j mod m)));
      [exact Hbit|].
    apply eq_true_iff_eq. rewrite andb_true_iff, !Nat.eqb_eq.
    symmetry. apply (@split_index m). apply Hqr; assumption.
Qed.

(** A permutation matrix passes [is_unitary]. *)
Lemma permutation_is_unitary (a : Tensor) (n : nat) (p : nat -> nat) :
  permutation_matrix a n p -> is_unitary a = Ok true.
Proof.
  intros (Hs & Hpr & Hpi & Hpa).
  rewrite (is_unitary_matrix a Hs (gram_matrix a Hs)).
  unfold is_close. rewrite np_allclose_same_shape by reflexivity.
  f_equal. simpl shape. apply forallb_indices2. intros i j Hi Hj. simpl.
  set (g := csum _).
  assert (Hg : bit_of (Nat.eqb i j) g).
  { unfold g.
    replace (Nat.eqb i j) with (Nat.eqb (p j) (p i)).
    2:{ apply eq_true_iff_eq. rewrite !Nat.eqb_eq.
        split; [intros E; symmetry; auto | congruence]. }
    apply (csum_select (fun t => cconj (item a [t; i])) (fun t => item a [t; j])
             (fun t => Nat.eqb t (p i)) (Hpr j Hj)).
    - intros t Ht. specialize (Hpa t i Ht Hi).
      destruct (Nat.eqb t (p i)); simpl in *;
        [now apply conj_one | now apply conj_zero].
    - intros t Ht. now apply Hpa. }
  destruct (Nat.eqb i j); simpl in Hg.
  - apply close_one; [assumption | apply one_is_one].
  - apply close_zero; [assumption | apply zero_is_zero].
Qed.
End PermutationAlgebra.

(* ================================================================= *)
(** * The gates are permutation matrices *)

Lemma even_double (k : nat) : Nat.even (2 * k) = true.
Proof. apply Nat.even_spec. now exists k. Qed.

Lemma even_double_succ (k : nat) : Nat.even (2 * k + 1) = false.
Proof.
  destruct (Nat.even (2 * k + 1)) eqn:E; [|reflexivity].
  apply Nat.even_spec in E as [m Hm]. lia.
Qed.

Lemma parity_cases (c : nat) :
  (exists k, c = 2 * k /\ Nat.even c = true) \/
  (exists k, c = 2 * k + 1 /\ Nat.even c = false).
Proof.
  destruct (Nat.even c) eqn:E.
  - left. apply Nat.even_spec in E as [k ->]. now exists k.
  - right. rewrite <- Nat.negb_odd in E. apply negb_false_iff in E.
    apply Nat.odd_spec in E as [k ->]. now exists k.
Qed.

(** Over more than one qubit, [cnot_image] stays within the basis ... *)
Lemma cnot_image_bound (d c : nat) :
  c < 2 ^ (S d + 1) -> cnot_image (S d) c < 2 ^ (S d + 1).
Proof.
  unfold cnot_image, flip_last. rewrite Nat.add_1_r, !Nat.pow_succ_r'.
  generalize (2 ^ d) as P. intros P Hc.
  destruct (Nat.leb_spec (2 * P) c); [|lia].
  destruct (parity_cases c) as [(k & -> & ->)|(k & -> & ->)]; lia.
Qed.

(** ... and is its own inverse. *)
Lemma cnot_image_involutive (d c : nat) :
  cnot_image (S d) (cnot_image (S d) c) = c.
Proof.
  unfold cnot_image, flip_last. rewrite !Nat.pow_succ_r'.
  generalize (2 ^ d) as P. intros P.
  destruct (Nat.leb_spec (2 * P) c) as [Hge|Hlt].
  - destruct (parity_cases c) as [(k & -> & ->)|(k & -> & ->)].
    + rewrite even_double_succ.
      destruct (Nat.leb_spec (2 * P) (2 * k + 1)); lia.
    + replace (2 * k + 1 - 1) with (2 * k) by lia. rewrite even_double.
      destruct (Nat.leb_spec (2 * P) (2 * k)); lia.
  - destruct (Nat.leb_spec (2 * P) c); [lia | reflexivity].
Qed.

Section GateFacts.
Context {N : Numeric} {B : BitArithmetic}.

Lemma Identity_permutation (k : nat) :
  permutation_matrix (Identity k) (2 ^ k) (fun j => j).
Proof.
  split; [reflexivity|]. split; [auto|]. split; [auto|].
  intros i j Hi Hj. simpl.
  destruct (Nat.eqb i j); [apply one_is_one | apply zero_is_zero].
Qed.

Lemma Cnot_permutation (idx0 idx1 : nat) :
  idx0 < idx1 ->
  permutation_matrix (Cnot idx0 idx1) (2 ^ (idx1 - idx0 + 1))
    (cnot_image (idx1 - idx0)).
Proof.
  intros Hlt. destruct (idx1 - idx0) as [|d] eqn:Hd; [lia|].
  split; [unfold Cnot; rewrite Hd; reflexivity|].
  split; [intros j; apply cnot_image_bound|]. split.
  - intros j j' _ _ E.
    rewrite <- (cnot_image_involutive d j), E. apply cnot_image_involutive.
  - intros i j Hi Hj. unfold Cnot. rewrite Hd. simpl item.
    destruct (Nat.eqb i (cnot_image (S d) j));
      [apply one_is_one | apply zero_is_zero].
Qed.

(** The padded gate of one iteration of [make_u]. *)
Lemma padded_Cnot_permutation (nbits idx : nat) :
  idx < nbits - 1 ->
  exists p,
    permutation_matrix (kron (Identity idx) (Cnot idx (nbits - 1)))
      (2 ^ nbits) p.
Proof.
  intros Hidx. eexists.
  replace (2 ^ nbits) with (2 ^ idx * 2 ^ (nbits - 1 - idx + 1)).
  - apply kron_permutation;
      [apply Identity_permutation | apply Cnot_permutation; assumption].
  - rewrite <- Nat.pow_add_r. f_equal. lia.
Qed.

(** The loop of [make_u] keeps the operator a permutation matrix. *)
Lemma make_u_loop (nbits : nat) (constant_c : list Z) (idxs : list nat)
    (op : Operator) (p : nat -> nat) :
  Forall (fun idx => idx < nbits - 1 /\ idx < length constant_c) idxs ->
  permutation_matrix op (2 ^ nbits) p ->
  exists op' p',
    for_each idxs
      (fun idx op =>
         b <- py_getitem constant_c idx ;;
         if truthy b
         then np_matmul (kron (Identity idx) (Cnot idx (nbits - 1))) op
         else Ok op)
      op = Ok op' /\
    permutation_matrix op' (2 ^ nbits) p'.
Proof.
  intros Hidx. revert op p.
  induction Hidx as [|idx idxs [Hlt Hlen] _ IH]; intros op p Hop; simpl.
  - now exists op, p.
  - unfold py_getitem at 1.
    destruct (nth_error constant_c idx) as [b|] eqn:Hb;
      [|apply nth_error_None in Hb; lia].
    simpl. destruct (truthy b).
    + destruct (padded_Cnot_permutation nbits Hlt) as [q Hq].
      destruct (matmul_permutation Hq Hop) as (op1 & -> & Hop1). simpl.
      eapply IH, Hop1.
    + eapply IH, Hop.
Qed.

(** The oracle is built without an exception and is a permutation
    matrix, hence passes its own assertion. *)
Lemma make_u_permutation (nbits : nat) (constant_c : list Z) :
  length constant_c = nbits - 1 ->
  exists op p,
    make_u nbits constant_c = Ok op /\
    permutation_matrix op (2 ^ nbits) p /\
    is_unitary op = Ok true.
Proof.
  intros Hlen. unfold make_u, py_range.
  replace (Z.to_nat (Z.of_nat nbits - 1)) with (nbits - 1) by lia.
  destruct (@make_u_loop nbits constant_c (seq 0 (nbits - 1))
              (Identity nbits) (fun j => j))
    as (op & p & -> & Hop).
  - apply Forall_forall. intros idx Hin. apply in_seq in Hin. lia.
  - apply Identity_permutation.
  - simpl. rewrite (permutation_is_unitary Hop). simpl.
    exists op, p. repeat split; try apply Hop.
    apply (permutation_is_unitary Hop).
Qed.
End GateFacts.

(* ================================================================= *)
(** * Zeros and ones in complex64 *)

Lemma SFeqb_zero (x : spec_float) :
  SFeqb x (S754_zero false) = true -> exists s, x = S754_zero s.
Proof.
  destruct x as [s|s| |s m e]; unfold SFeqb; simpl; try discriminate.
  - intros _. now exists s.
  - destruct s; discriminate.
  - destruct s; discriminate.
Qed.

Lemma SFeqb_finite (x : spec_float) (m : positive) (e : Z) :
  SFeqb x (S754_finite false m e) = true -> x = S754_finite false m e.
Proof.
  destruct x as [s|s| |s m' e']; unfold SFeqb; simpl; try discriminate.
  - destruct s; discriminate.
  - destruct s; try discriminate.
    destruct (Z.compare_spec e' e) as [->| |]; try discriminate.
    change (Pos.compare_cont Eq m' m) with (Pos.compare m' m).
    destruct (Pos.compare_spec m' m) as [->| |]; try discriminate.
    reflexivity.
Qed.

Lemma complex64_one :
  cone (N := complex64) = (S754_finite false 8388608 (-23), S754_zero false).
Proof. vm_compute. reflexivity. Qed.

Lemma complex64_zero :
  czero (N := complex64) = (S754_zero false, S754_zero false).
Proof. vm_compute. reflexivity. Qed.

(** The complex64 values that [== 0]: both parts a zero of either sign. *)
Lemma complex64_is_zero (x : Binary32.c64) :
  is_zero (N := complex64) x ->
  exists s1 s2, x = (S754_zero s1, S754_zero s2).
Proof.
  unfold is_zero. rewrite complex64_zero. destruct x as [re im].
  simpl. unfold Binary32.ceqb. simpl. intros H.
  apply andb_true_iff in H as [Hre Him].
  apply SFeqb_zero in Hre as [s1 ->]. apply SFeqb_zero in Him as [s2 ->].
  now exists s1, s2.
Qed.

(** The complex64 values that [== 1]: 1.0 with a zero imaginary part. *)
Lemma complex64_is_one (x : Binary32.c64) :
  is_one (N := complex64) x ->
  exists s, x = (S754_finite false 8388608 (-23), S754_zero s).
Proof.
  unfold is_one. rewrite complex64_one. destruct x as [re im].
  simpl. unfold Binary32.ceqb. simpl. intros H.
  apply andb_true_iff in H as [Hre Him].
  apply SFeqb_finite in Hre as ->. apply SFeqb_zero in Him as [s ->].
  now exists s.
Qed.

Ltac bit_cases :=
  repeat match goal with
         | H : is_zero _ |- _ =>
             apply complex64_is_zero in H; destruct H as (? & ? & ->)
         | H : is_one _ |- _ =>
             apply complex64_is_one in H; destruct H as (? & ->)
         | H : _ \/ _ |- _ => destruct H
         | s : bool |- _ => destruct s
         end;
  vm_compute; reflexivity.

#[export] Instance complex64_bits : BitArithmetic (N := complex64).
Proof.
  split; try (intros x y Hx Hy; bit_cases); try (intros x Hx; bit_cases).
  - vm_compute; reflexivity.
  - vm_compute; reflexivity.
Qed.

(* ================================================================= *)
(** * The oracle and the closure of is_unitary *)

(** C3. For [nbits >= 2] and a secret of [nbits - 1] entries, [make_u]
    raises nothing, its assertion included: it returns an operator on
    [nbits] qubits on which [is_unitary] is true.  (Any integers will
    do as entries; [make_u] tests them for truth.) *)
Theorem make_u_is_unitary (nbits : nat) (constant_c : list Z) :
  2 <= nbits -> length constant_c = nbits - 1 ->
  exists op,
    make_u (N := complex64) nbits constant_c = Ok op /\
    shape op = [2 ^ nbits; 2 ^ nbits] /\
    is_unitary op = Ok true.
Proof.
  intros _ Hlen.
  destruct (make_u_permutation (N := complex64) nbits constant_c Hlen)
    as (op & p & Hrun & Hperm & Hunit).
  exists op. repeat split; [exact Hrun | apply Hperm | exact Hunit].
Qed.

Lemma make_u_is_unitary_witness :
  exists op,
    make_u (N := complex64) 3 [1%Z; 0%Z] = Ok op /\
    shape op = [2 ^ 3; 2 ^ 3] /\
    is_unitary op = Ok true.
Proof.
  apply (@make_u_is_unitary 3 [1%Z; 0%Z]); [lia | reflexivity].
Defined.


(** ** Arithmetic that does not round

    A binary32 number is [k * 2^e] for an integer [k] of at most 24
    bits.  Sums, differences and products of such numbers that are
    again of this form are computed exactly: the operations of
    [SpecFloat] round the exact result, and rounding leaves a number
    that needs no more than 24 bits. *)

Section ExactArithmetic.
Local Open Scope Z_scope.





























End ExactArithmetic.


(** ** Sums of Gaussian integers *)

Section GaussSums.
Local Open Scope Z_scope.


Ltac gauss_ring :=
  apply injective_projections;
  cbn [fst snd gadd gmul gconj gzero]; ring.

Lemma gadd_zero_l (x : gauss) : gadd gzero x = x.
Proof. gauss_ring. Qed.


Lemma gmul_zero_l (x : gauss) : gmul gzero x = gzero.
Proof. gauss_ring. Qed.

Lemma gsum_ext (f g : nat -> gauss) (n : nat) :
  (forall t, (t < n)%nat -> f t = g t) -> gsum f n = gsum g n.
Proof.
  induction n as [|n IH]; intros H; [reflexivity|].
  cbn [gsum]. rewrite IH, (H n) by auto with arith. reflexivity.
Qed.

Lemma gsum_zero (n : nat) : gsum (fun _ => gzero) n = gzero.
Proof. induction n as [|n IH]; [reflexivity|]. cbn [gsum]. now rewrite IH. Qed.





Lemma gsum_select (g : nat -> gauss) (k n : nat) :
  (k < n)%nat ->
  gsum (fun t => if Nat.eqb t k then g t else gzero) n = g k.
Proof.
  intros Hk. induction n as [|n IH]; [lia|]. cbn [gsum].
  destruct (Nat.eqb_spec n k) as [->|Hne].
  - rewrite (@gsum_ext _ (fun _ => gzero)), gsum_zero.
    + apply gadd_zero_l.
    + intros t Ht. destruct (Nat.eqb_spec t k); [lia | reflexivity].
  - rewrite IH by lia. gauss_ring.
Qed.















End GaussSums.


(** ** The sizes of the entries and of the sums *)

Section GaussBounds.
Local Open Scope Z_scope.















End GaussBounds.


(** ** Sums of products in complex64 *)

Section ComplexDyadic.
Local Open Scope Z_scope.









End ComplexDyadic.


(** ** Exactly unitary matrices pass is_unitary, and so do their products *)














(** A permutation matrix is exactly unitary: its entries are the
    integers 0 and 1. *)
Lemma permutation_dyadic_unitary (a : Tensor (N := complex64)) (n : nat)
    (p : nat -> nat) :
  permutation_matrix a n p ->
  dyadic_unitary a n 0 (fun i j => delta i (p j) 1).
Proof.
  intros (Hs & Hpr & Hpi & Hpa). split; [exact Hs|]. split.
  - intros i j Hi Hj. specialize (Hpa i j Hi Hj). unfold delta.
    destruct (Nat.eqb i (p j)); cbn [bit_of] in Hpa.
    + apply complex64_is_one in Hpa as (s & ->). split; reflexivity.
    + apply complex64_is_zero in Hpa as (s1 & s2 & ->). split; reflexivity.
  - intros i j Hi Hj. unfold gram.
    rewrite (@gsum_ext _ (fun k => if Nat.eqb k (p i)
                                   then delta (p i) (p j) 1 else gzero)).
    + rewrite gsum_select by auto. unfold delta.
      replace (Nat.eqb (p i) (p j)) with (Nat.eqb i j); [reflexivity|].
      apply eq_true_iff_eq. rewrite !Nat.eqb_eq.
      split; [congruence | auto].
    + intros k Hk. unfold delta at 1.
      destruct (Nat.eqb_spec k (p i)) as [->|Hne].
      * unfold delta. destruct (Nat.eqb (p i) (p j)); reflexivity.
      * apply gmul_zero_l.
Qed.



Ltac small_unitary :=
  split; [reflexivity|]; split; intros i j Hi Hj;
  (destruct i as [|[|[|[|i]]]]; try lia);
  (destruct j as [|[|[|[|j]]]]; try lia);
  vm_compute; repeat split; reflexivity.


(** Two more exactly unitary matrices: [[[0, -i], [i, 0]]], and the
    4-by-4 matrix of the entries [1/2] and [-1/2] with the signs
    [[+, +, +, +], [+, -, +, -], [+, +, -, -], [+, -, -, +]]. *)
Example exactly_unitary_matrices :
  dyadic_unitary
    (matrix_of [[cdyadic 0 0 0; cdyadic 0 (-1) 0];
                [cdyadic 0 1 0; cdyadic 0 0 0]])
    2 0 (entries_of [[(0, 0); (0, -1)]; [(0, 1); (0, 0)]]%Z) /\
  dyadic_unitary
    (matrix_of
       [[cdyadic 1 0 (-1); cdyadic 1 0 (-1); cdyadic 1 0 (-1); cdyadic 1 0 (-1)];
        [cdyadic 1 0 (-1); cdyadic (-1) 0 (-1); cdyadic 1 0 (-1); cdyadic (-1) 0 (-1)];
        [cdyadic 1 0 (-1); cdyadic 1 0 (-1); cdyadic (-1) 0 (-1); cdyadic (-1) 0 (-1)];
        [cdyadic 1 0 (-1); cdyadic (-1) 0 (-1); cdyadic (-1) 0 (-1); cdyadic 1 0 (-1)]])
    4 1
    (entries_of [[(1, 0); (1, 0); (1, 0); (1, 0)];
                 [(1, 0); (-1, 0); (1, 0); (-1, 0)];
                 [(1, 0); (1, 0); (-1, 0); (-1, 0)];
                 [(1, 0); (-1, 0); (-1, 0); (1, 0)]]%Z).
Proof. split; small_unitary. Qed.

(* ================================================================= *)
(** * The action of the oracle on the basis states *)

Lemma flip_last_involutive (j : nat) : flip_last (flip_last j) = j.
Proof.
  unfold flip_last.
  destruct (parity_cases j) as [(k & -> & ->)|(k & -> & ->)].
  - rewrite even_double_succ. lia.
  - replace (2 * k + 1 - 1) with (2 * k) by lia. now rewrite even_double.
Qed.

(** Negating the last qubit acts on the remainder by an even number. *)
Lemma flip_last_remainder (P q r : nat) :
  flip_last (q * (2 * P) + r) = q * (2 * P) + flip_last r.
Proof.
  unfold flip_last.
  destruct (parity_cases r) as [(k & -> & ->)|(k & -> & ->)].
  - replace (q * (2 * P) + 2 * k) with (2 * (q * P + k)) by lia.
    rewrite even_double. lia.
  - replace (q * (2 * P) + (2 * k + 1)) with (2 * (q * P + k) + 1) by lia.
    rewrite even_double_succ. lia.
Qed.

Lemma flip_last_bound (P r : nat) : r < 2 * P -> flip_last r < 2 * P.
Proof.
  unfold flip_last. intros Hr.
  destruct (parity_cases r) as [(k & -> & ->)|(k & -> & ->)]; lia.
Qed.

(** Whether the first of [d + 1] qubits is set does not depend on the
    last one, [d >= 1]. *)
Lemma flip_last_keeps_first (P r : nat) :
  Nat.leb (2 * P) (flip_last r) = Nat.leb (2 * P) r.
Proof.
  unfold flip_last. apply eq_true_iff_eq. rewrite !Nat.leb_le.
  destruct (parity_cases r) as [(k & -> & ->)|(k & -> & ->)]; lia.
Qed.

(** The map of the padded gate, in terms of the qubit it is controlled
    by. *)
Lemma padded_image (nbits idx j : nat) :
  idx < nbits - 1 ->
  j / 2 ^ (nbits - 1 - idx + 1) * 2 ^ (nbits - 1 - idx + 1)
    + cnot_image (nbits - 1 - idx) (j mod 2 ^ (nbits - 1 - idx + 1)) =
  if qubit nbits idx j then flip_last j else j.
Proof.
  intros Hidx. unfold qubit, cnot_image.
  replace (nbits - idx) with (nbits - 1 - idx + 1) by lia.
  set (d := nbits - 1 - idx). set (m := 2 ^ (d + 1)).
  assert (Hj : j = j / m * m + j mod m)
    by (rewrite (Nat.div_mod_eq j m) at 1; lia).
  destruct (Nat.leb (2 ^ d) (j mod m)); [|lia].
  assert (Hm : m = 2 * 2 ^ d)
    by (unfold m; now rewrite Nat.add_1_r, Nat.pow_succ_r').
  replace (flip_last j) with (flip_last (j / m * (2 * 2 ^ d) + j mod m))
    by (f_equal; rewrite <- Hm; symmetry; exact Hj).
  rewrite flip_last_remainder, <- Hm. reflexivity.
Qed.

Lemma qubit_flip_last (nbits idx j : nat) :
  idx < nbits - 1 -> qubit nbits idx (flip_last j) = qubit nbits idx j.
Proof.
  intros Hidx. unfold qubit.
  replace (nbits - idx) with (S (nbits - 1 - idx)) by lia.
  destruct (nbits - 1 - idx) as [|d] eqn:Hd; [lia|].
  rewrite !Nat.pow_succ_r'. set (P := 2 ^ d). set (m := 2 * (2 * P)).
  assert (Hmpos : m <> 0) by (unfold m, P; pose proof (Nat.pow_nonzero 2 d); lia).
  rewrite (Nat.div_mod_eq j m) at 1.
  replace (m * (j / m) + j mod m) with (j / m * (2 * (2 * P)) + j mod m)
    by (unfold m; lia).
  rewrite flip_last_remainder. fold m.
  rewrite Nat.add_comm, Nat.Div0.mod_add.
  rewrite Nat.mod_small.
  - apply flip_last_keeps_first.
  - apply flip_last_bound. apply Nat.mod_upper_bound. exact Hmpos.
Qed.

Section OracleAction.
Context {N : Numeric} {B : BitArithmetic}.

Lemma permutation_matrix_ext (a : Tensor) (n : nat) (p p' : nat -> nat) :
  (forall j, j < n -> p j = p' j) ->
  permutation_matrix a n p -> permutation_matrix a n p'.
Proof.
  intros Hext (Hs & Hr & Hi & Ha). split; [exact Hs|]. split; [|split].
  - intros j Hj. rewrite <- Hext by assumption. auto.
  - intros j j' Hj Hj' E. apply Hi; auto. now rewrite !Hext.
  - intros i j Hi' Hj. rewrite <- Hext by assumption. auto.
Qed.

(** The padded gate of iteration [idx] negates the last qubit of the
    basis states whose qubit [idx] is set. *)
Lemma padded_Cnot_action (nbits idx : nat) :
  idx < nbits - 1 ->
  permutation_matrix (kron (Identity idx) (Cnot idx (nbits - 1)))
    (2 ^ nbits)
    (fun j => if qubit nbits idx j then flip_last j else j).
Proof.
  intros Hidx.
  assert (Hk := kron_permutation (Identity_permutation idx)
                  (@Cnot_permutation _ _ idx (nbits - 1) Hidx)).
  replace (2 ^ idx * 2 ^ (nbits - 1 - idx + 1)) with (2 ^ nbits) in Hk
    by (rewrite <- Nat.pow_add_r; f_equal; lia).
  apply (permutation_matrix_ext (p := fun j =>
           j / 2 ^ (nbits - 1 - idx + 1) * 2 ^ (nbits - 1 - idx + 1)
           + cnot_image (nbits - 1 - idx) (j mod 2 ^ (nbits - 1 - idx + 1))));
    [|exact Hk].
  intros j _. now apply padded_image.
Qed.

(** The loop of [make_u]: each iteration whose secret entry is true
    adds the qubit [idx] to the parity that decides the negation. *)
Lemma make_u_loop_action (nbits : nat) (constant_c : list Z)
    (idxs : list nat) (op : Operator) (b0 : nat -> bool) :
  Forall (fun idx => idx < nbits - 1 /\ idx < length constant_c) idxs ->
  permutation_matrix op (2 ^ nbits)
    (fun j => if b0 j then flip_last j else j) ->
  exists op',
    for_each idxs
      (fun idx op =>
         b <- py_getitem constant_c idx ;;
         if truthy b
         then np_matmul (kron (Identity idx) (Cnot idx (nbits - 1))) op
         else Ok op)
      op = Ok op' /\
    permutation_matrix op' (2 ^ nbits)
      (fun j =>
         if fold_left xorb
              (map (fun idx => truthy (nth idx constant_c 0%Z)
                               && qubit nbits idx j) idxs)
              (b0 j)
         then flip_last j else j).
Proof.
  intros Hidx. revert op b0.
  induction Hidx as [|idx idxs [Hlt Hlen] _ IH]; intros op b0 Hop; simpl.
  - now exists op.
  - unfold py_getitem at 1.
    rewrite (nth_error_nth' constant_c 0%Z Hlen). simpl.
    destruct (truthy (nth idx constant_c 0%Z)); simpl.
    + destruct (matmul_permutation (padded_Cnot_action nbits Hlt) Hop)
        as (op1 & -> & Hop1). simpl.
      apply (IH op1 (fun j => xorb (b0 j) (qubit nbits idx j))).
      apply (permutation_matrix_ext (p := fun j =>
               if qubit nbits idx (if b0 j then flip_last j else j)
               then flip_last (if b0 j then flip_last j else j)
               else if b0 j then flip_last j else j)); [|exact Hop1].
      intros j _. destruct (b0 j); simpl.
      * rewrite (qubit_flip_last nbits j Hlt).
        destruct (qubit nbits idx j); simpl;
          [apply flip_last_involutive | reflexivity].
      * destruct (qubit nbits idx j); reflexivity.
    + apply (IH op (fun j => xorb (b0 j) false)).
      apply (permutation_matrix_ext (p := fun j =>
               if b0 j then flip_last j else j)); [|exact Hop].
      intros j _. now rewrite xorb_false_r.
Qed.

Lemma make_u_action (nbits : nat) (constant_c : list Z) :
  length constant_c = nbits - 1 ->
  exists op,
    make_u nbits constant_c = Ok op /\
    permutation_matrix op (2 ^ nbits) (oracle_image nbits constant_c).
Proof.
  intros Hlen. unfold make_u, py_range.
  replace (Z.to_nat (Z.of_nat nbits - 1)) with (nbits - 1) by lia.
  destruct (@make_u_loop_action nbits constant_c (seq 0 (nbits - 1))
              (Identity nbits) (fun _ => false))
    as (op & -> & Hop).
  - apply Forall_forall. intros idx Hin. apply in_seq in Hin. lia.
  - apply Identity_permutation.
  - simpl. rewrite (permutation_is_unitary Hop). simpl.
    exists op. split; [reflexivity | exact Hop].
Qed.
End OracleAction.

(** X1. The oracle of [make_u]: the operator on [nbits] qubits whose entry
    in row [i] and column [j] is 1 where [i] is the basis state [j]
    with its last qubit negated or not, by the parity of the secret
    entries taken for true whose qubit is set in [j], and 0 elsewhere. *)
Theorem make_u_oracle_action (nbits : nat) (constant_c : list Z) :
  length constant_c = nbits - 1 ->
  exists op,
    make_u (N := complex64) nbits constant_c = Ok op /\
    shape op = [2 ^ nbits; 2 ^ nbits] /\
    forall i j, i < 2 ^ nbits -> j < 2 ^ nbits ->
      ceqb (item op [i; j])
           (if Nat.eqb i (oracle_image nbits constant_c j)
            then cone else czero) = true.
Proof.
  intros Hlen.
  destruct (make_u_action (N := complex64) nbits constant_c Hlen)
    as (op & Hrun & Hs & _ & _ & Hit).
  exists op. split; [exact Hrun|]. split; [exact Hs|].
  intros i j Hi Hj. specialize (Hit i j Hi Hj).
  destruct (Nat.eqb i (oracle_image nbits constant_c j)); exact Hit.
Qed.

Lemma make_u_oracle_action_witness :
  exists op,
    make_u (N := complex64) 3 [1%Z; 0%Z] = Ok op /\
    shape op = [2 ^ 3; 2 ^ 3] /\
    forall i j, i < 2 ^ 3 -> j < 2 ^ 3 ->
      ceqb (item op [i; j])
           (if Nat.eqb i (oracle_image 3 [1%Z; 0%Z] j)
            then cone else czero) = true.
Proof.
  apply (@make_u_oracle_action 3 [1%Z; 0%Z]). reflexivity.
Defined.

(* ================================================================= *)
(** * The functions on small inputs *)

(** The controlled-NOT on two qubits is a permutation matrix for the
    exact test; [near_identity] is not, its diagonal is not 1. *)
Example is_permutation_Cnot :
  is_permutation (N := complex64) (Cnot 0 1) = Ok 1%Z /\
  is_permutation near_identity = Ok 0%Z.
Proof. split; vm_compute; reflexivity. Qed.

(** [[[1, 0], [0, 0]]] is a pure density matrix, the matrix of zeros a
    density matrix that is not pure, and [near_identity], of trace
    above 1, no density matrix: [is_pure] raises. *)
Example is_pure_small :
  is_pure (N := complex64) (matrix_of [[cone; czero]; [czero; czero]]) = Ok true /\
  is_pure (N := complex64) (np_zeros [2; 2]) = Ok false /\
  is_density near_identity = Ok false /\
  is_pure near_identity = Raise ValueError.
Proof. repeat split; vm_compute; reflexivity. Qed.

(** The oracle of the secret (1, 0) on three qubits: the last qubit is
    negated where the first is set. *)
Example make_u_small :
  (op <- make_u (N := complex64) 3 [1%Z; 0%Z] ;;
   Ok (map (map (fun x => ceqb x cone)) (rows_of op))) =
  Ok [[true; false; false; false; false; false; false; false];
      [false; true; false; false; false; false; false; false];
      [false; false; true; false; false; false; false; false];
      [false; false; false; true; false; false; false; false];
      [false; false; false; false; false; true; false; false];
      [false; false; false; false; true; false; false; false];
      [false; false; false; false; false; false; false; true];
      [false; false; false; false; false; false; true; false]].
Proof. vm_compute. reflexivity. Qed.

(** A secret shorter than [nbits - 1] is an [IndexError]. *)
Example make_u_short_secret :
  make_u (N := complex64) 3 [1%Z] = Raise IndexError.
Proof. reflexivity. Qed.

(** The same oracle as a map on the basis states 0 .. 7, and that of
    the secret (1, 1). *)
Example oracle_image_small :
  map (oracle_image 3 [1%Z; 0%Z]) (seq 0 8) = [0; 1; 2; 3; 5; 4; 7; 6] /\
  map (oracle_image 3 [1%Z; 1%Z]) (seq 0 8) = [0; 1; 3; 2; 5; 4; 6; 7].
Proof. split; reflexivity. Qed.

(* ================================================================= *)
(** * make_c: what is drawn and what is returned *)

Lemma nth_map_seq {A : Type} (f : nat -> A) (n j : nat) (d : A) :
  j < n -> nth j (map f (seq 0 n)) d = f j.
Proof.
  intros Hj. rewrite nth_indep with (d' := f 0).
  - now rewrite map_nth, seq_nth.
  - now rewrite length_map, length_seq.
Qed.

(** The loop of [make_c] from index [s] on, [m] iterations: it writes
    the bits of the next [m] draws at [s .. s + m - 1]. *)
Lemma make_c_loop_draws (last m : nat) :
  forall (s : nat) (c : list Z) (g : rng),
    s + m <= last -> length c = S last ->
    exists c' g',
      for_each (seq s m)
        (fun idx st =>
           let '(constant_c, g) := st in
           let '(r, g') := random g in
           l <- py_setitem constant_c idx
                  (int_of_bool (PyFloat.ltb r PyFloat.half)) ;;
           Ok (l, g'))
        (c, g) = Ok (c', g') /\
      length c' = S last /\
      (forall k, g' k = g (m + k)) /\
      (forall j, nth j c' 0%Z =
                 if Nat.leb s j && Nat.ltb j (s + m)
                 then draw_bit (g (j - s)) else nth j c 0%Z).
Proof.
  induction m as [|m IH]; intros s c g Hsm Hlen; simpl.
  - exists c, g. repeat split; auto.
    intros j. destruct (Nat.leb_spec s j); simpl; [|reflexivity].
    destruct (Nat.ltb_spec j (s + 0)); [lia | reflexivity].
  - destruct (@py_setitem_inside _ c s (draw_bit (g 0)) 0%Z)
      as (l & Hset & Hl & Hv & Hother); [lia|].
    unfold draw_bit in Hset. rewrite Hset. simpl.
    destruct (IH (S s) l (fun k => g (S k))) as (c' & g' & Hrun & Hlen' & Hg' & Hnth);
      [lia | lia |].
    exists c', g'. split; [exact Hrun|]. split; [exact Hlen'|]. split.
    + intros k. rewrite Hg'. f_equal.
    + intros j. rewrite Hnth.
      destruct (Nat.leb_spec (S s) j), (Nat.ltb_spec j (S s + m)),
               (Nat.leb_spec s j), (Nat.ltb_spec j (s + S m));
        cbn [andb]; try lia; try (apply Hother; lia).
      * do 2 f_equal. lia.
      * assert (j = s) by lia. subst j. now rewrite Nat.sub_diag.
Qed.

(** X2. [make_c(n + 1)] returns the bits of the next [n] draws of
    [np.random], in order, followed by a 0, and leaves the generator
    [n] draws further. *)
Theorem make_c_draws (n : nat) (g : rng) :
  exists g',
    make_c (S n) g =
    Ok (map (fun i => draw_bit (g i)) (seq 0 n) ++ [0%Z], g') /\
    forall k, g' k = g (n + k).
Proof.
  unfold make_c, py_range.
  replace (Z.to_nat (Z.of_nat (S n) - 1)) with n by lia.
  destruct (@make_c_loop_draws n n 0 (repeat 0%Z (S n)) g)
    as (c & g' & Hrun & Hlen & Hg' & Hnth);
    [lia | apply repeat_length |].
  exists g'. split; [|exact Hg'].
  rewrite Hrun. do 2 f_equal.
  apply (nth_ext _ _ 0%Z 0%Z).
  - rewrite Hlen, length_app, length_map, length_seq. simpl. lia.
  - intros j Hj. rewrite Hnth. cbn [Nat.leb andb Nat.add].
    destruct (Nat.ltb_spec j n).
    + rewrite app_nth1 by (rewrite length_map, length_seq; lia).
      rewrite (nth_map_seq (fun i => draw_bit (g i))) by lia.
      now rewrite Nat.sub_0_r.
    + rewrite nth_repeat.
      rewrite app_nth2 by (rewrite length_map, length_seq; lia).
      rewrite length_map, length_seq.
      destruct (j - n) as [|[|?]]; reflexivity.
Qed.

Lemma draw_bit_draws_for (b : list Z) (k : nat) :
  Forall is_bit b -> k < length b -> draw_bit (draws_for b k) = nth k b 0%Z.
Proof.
  intros Hb Hk. rewrite Forall_forall in Hb.
  destruct (Hb (nth k b 0%Z) (nth_In _ _ Hk)) as [E|E];
    unfold draws_for; rewrite E; vm_compute; reflexivity.
Qed.

(** X3. Every tuple of bits followed by a 0 is returned by [make_c]
    for some draws in [0, 1): 0.0 where the bit is 1 and 0.75 where it
    is 0. *)
Theorem make_c_reaches_prefix (b : list Z) :
  Forall is_bit b ->
  (forall k, draws_for b k = PyFloat.zero \/ draws_for b k = lit_0_75) /\
  exists g', make_c (S (length b)) (draws_for b) = Ok (b ++ [0%Z], g').
Proof.
  intros Hb. split.
  - intros k. unfold draws_for. destruct (Z.eqb _ 1); auto.
  - destruct (make_c_draws (length b) (draws_for b)) as (g' & Hrun & _).
    exists g'. rewrite Hrun. do 3 f_equal.
    apply (nth_ext _ _ 0%Z 0%Z).
    + now rewrite length_map, length_seq.
    + intros j Hj. rewrite length_map, length_seq in Hj.
      rewrite (nth_map_seq (fun i => draw_bit (draws_for b i))) by lia.
      now apply draw_bit_draws_for.
Qed.

Lemma make_c_reaches_prefix_witness :
  exists g', make_c 4 (draws_for [1%Z; 0%Z; 1%Z]) = Ok ([1%Z; 0%Z; 1%Z; 0%Z], g').
Proof.
  apply (@make_c_reaches_prefix [1%Z; 0%Z; 1%Z]).
  apply Forall_cons; [right; reflexivity|].
  apply Forall_cons; [left; reflexivity|].
  apply Forall_cons; [right; reflexivity|]. apply Forall_nil.
Defined.

(* ================================================================= *)
(** * make_u and the length of the secret *)

Lemma for_each_app {A S : Type} (xs ys : list A) (body : A -> S -> result S)
    (acc : S) :
  for_each (xs ++ ys) body acc =
  (acc' <- for_each xs body acc ;; for_each ys body acc').
Proof.
  revert acc. induction xs as [|x xs IH]; intros acc; simpl; [reflexivity|].
  destruct (body x acc) as [acc'|e]; simpl; [apply IH | reflexivity].
Qed.

Lemma for_each_agree {A S : Type} (xs : list A) (f g : A -> S -> result S)
    (acc : S) :
  (forall x acc, In x xs -> f x acc = g x acc) ->
  for_each xs f acc = for_each xs g acc.
Proof.
  revert acc. induction xs as [|x xs IH]; intros acc H; simpl; [reflexivity|].
  rewrite (H x acc) by now left.
  destruct (g x acc) as [acc'|e]; simpl; [|reflexivity].
  apply IH. intros y acc'' Hy. apply H. now right.
Qed.

Section SecretLength.
Context {N : Numeric} {B : BitArithmetic}.

(** A secret with fewer than [nbits - 1] entries: the loop reaches the
    index past its end and [constant_c[idx]] raises. *)
Lemma make_u_short (nbits : nat) (constant_c : list Z) :
  length constant_c < nbits - 1 -> make_u nbits constant_c = Raise IndexError.
Proof.
  intros Hlen. unfold make_u, py_range.
  replace (Z.to_nat (Z.of_nat nbits - 1))
    with (length constant_c + S (nbits - 1 - S (length constant_c))) by lia.
  rewrite seq_app, for_each_app.
  destruct (@make_u_loop _ _ nbits constant_c (seq 0 (length constant_c))
              (Identity nbits) (fun j => j))
    as (op & p & -> & _).
  - apply Forall_forall. intros idx Hin. apply in_seq in Hin. lia.
  - apply Identity_permutation.
  - simpl. unfold py_getitem at 1.
    replace (nth_error constant_c (length constant_c)) with (@None Z)
      by (symmetry; apply nth_error_None; lia).
    reflexivity.
Qed.

(** The entries past [nbits - 1] are never read. *)
Lemma make_u_long (nbits : nat) (constant_c : list Z) :
  make_u nbits constant_c = make_u nbits (firstn (nbits - 1) constant_c).
Proof.
  unfold make_u, py_range.
  replace (Z.to_nat (Z.of_nat nbits - 1)) with (nbits - 1) by lia.
  f_equal. apply for_each_agree. intros idx op Hin. apply in_seq in Hin.
  unfold py_getitem. rewrite nth_error_firstn.
  destruct (Nat.ltb_spec idx (nbits - 1)); [reflexivity | lia].
Qed.
End SecretLength.

(** X4. The length of the secret: [make_u] raises [IndexError] when
    the secret has fewer than [nbits - 1] entries; otherwise it raises
    nothing, reads the first [nbits - 1] entries only, and returns a
    [2^nbits]-dimensional operator that passes [is_unitary]. *)
Theorem make_u_secret_length (nbits : nat) (constant_c : list Z) :
  (length constant_c < nbits - 1 ->
   make_u (N := complex64) nbits constant_c = Raise IndexError) /\
  (nbits - 1 <= length constant_c ->
   make_u (N := complex64) nbits constant_c
     = make_u nbits (firstn (nbits - 1) constant_c) /\
   exists op,
     make_u (N := complex64) nbits constant_c = Ok op /\
     shape op = [2 ^ nbits; 2 ^ nbits] /\
     is_unitary op = Ok true).
Proof.
  split; [apply make_u_short|]. intros Hlen.
  split; [apply make_u_long|]. rewrite make_u_long.
  destruct (make_u_permutation (N := complex64) nbits
              (firstn (nbits - 1) constant_c))
    as (op & p & Hrun & Hperm & Hunit).
  - now apply firstn_length_le.
  - exists op. repeat split; [exact Hrun | apply Hperm | exact Hunit].
Qed.

Lemma make_u_secret_length_witness :
  make_u (N := complex64) 3 [1%Z] = Raise IndexError /\
  make_u (N := complex64) 2 [1%Z; 5%Z; 0%Z] = make_u 2 (firstn 1 [1%Z; 5%Z; 0%Z]).
Proof.
  split.
  - apply (proj1 (@make_u_secret_length 3 [1%Z])). simpl. lia.
  - apply (proj2 (@make_u_secret_length 2 [1%Z; 5%Z; 0%Z])). simpl. lia.
Defined.

(* ================================================================= *)
(** * The oracle is a self-inverse permutation *)

Section Involutions.
Context {N : Numeric} {B : BitArithmetic}.

(** A permutation matrix passes the exact test [is_permutation]; the
    rows are summed through the inverse map [q]. *)
Lemma permutation_passes_is_permutation (a : Tensor) (n : nat)
    (p q : nat -> nat) :
  permutation_matrix a n p ->
  (forall i, i < n -> q i < n /\ p (q i) = i) ->
  is_permutation a = Ok 1%Z.
Proof.
  intros (Hs & Hpr & Hpi & Hpa) Hq.
  destruct (is_permutation_square a Hs)
    as (cols & rows & Hsc & Hic & Hsr & Hir & ->).
  assert (Hcols : np_all (fun v => ceqb v cone) cols = true).
  { apply (np_all_vector _ cols Hsc). intros j Hj. rewrite Hic.
    apply csum_range_one with (k0 := p j); [auto | |].
    - specialize (Hpa (p j) j (Hpr j Hj) Hj).
      now rewrite Nat.eqb_refl in Hpa.
    - intros i Hi Hne. specialize (Hpa i j Hi Hj).
      apply Nat.eqb_neq in Hne. now rewrite Hne in Hpa. }
  assert (Hrows : np_all (fun v => ceqb v cone) rows = true).
  { apply (np_all_vector _ rows Hsr). intros i Hi. rewrite Hir.
    destruct (Hq i Hi) as [Hqi Hpq].
    apply csum_range_one with (k0 := q i); [exact Hqi | |].
    - specialize (Hpa i (q i) Hi Hqi).
      now rewrite Hpq, Nat.eqb_refl in Hpa.
    - intros j Hj Hne. specialize (Hpa i j Hi Hj).
      destruct (Nat.eqb_spec i (p j)) as [E|_]; [|exact Hpa].
      exfalso. apply Hne. apply Hpi; auto. now rewrite Hpq. }
  assert (Hel : np_all (fun v => ceqb v cone || ceqb v czero) a = true).
  { apply (np_all_matrix _ a Hs). intros i j Hi Hj.
    apply orb_true_iff. specialize (Hpa i j Hi Hj).
    destruct (Nat.eqb i (p j)); [left | right]; exact Hpa. }
  now rewrite Hcols, Hrows, Hel.
Qed.

(** The matrix of a self-inverse permutation is Hermitian. *)
Lemma involution_is_hermitian (a : Tensor) (n : nat) (p : nat -> nat) :
  permutation_matrix a n p ->
  (forall j, j < n -> p (p j) = j) ->
  is_hermitian a = Ok true.
Proof.
  intros (Hs & Hpr & Hpi & Hpa) Hinv.
  rewrite (is_hermitian_square a Hs). f_equal.
  apply forallb_indices2. intros i j Hi Hj. simpl rev.
  assert (Hij := Hpa i j Hi Hj). assert (Hji := Hpa j i Hj Hi).
  replace (Nat.eqb j (p i)) with (Nat.eqb i (p j)) in Hji.
  2:{ apply eq_true_iff_eq. rewrite !Nat.eqb_eq.
      split; intros E; rewrite E; symmetry; apply Hinv; assumption. }
  destruct (Nat.eqb i (p j)); simpl in *.
  - apply close_one; [assumption | now apply conj_one].
  - apply close_zero; [assumption | now apply conj_zero].
Qed.

(** Its square is the identity, up to [is_close]. *)
Lemma involution_squares_to_identity (a : Tensor) (k : nat) (p : nat -> nat) :
  permutation_matrix a (2 ^ k) p ->
  (forall j, j < 2 ^ k -> p (p j) = j) ->
  exists sq, np_matmul a a = Ok sq /\ is_close sq (Identity k) = Ok true.
Proof.
  intros Ha Hinv.
  destruct (matmul_permutation Ha Ha) as (sq & Hsq & Hs & _ & _ & Hit).
  exists sq. split; [exact Hsq|].
  unfold is_close. rewrite np_allclose_same_shape by (now rewrite Hs).
  f_equal. rewrite Hs. apply forallb_indices2. intros i j Hi Hj.
  specialize (Hit i j Hi Hj). simpl in Hit. rewrite (Hinv j Hj) in Hit.
  simpl. destruct (Nat.eqb i j); simpl in Hit.
  - apply close_one; [assumption | apply one_is_one].
  - apply close_zero; [assumption | apply zero_is_zero].
Qed.
End Involutions.

(** The parity does not depend on the last qubit ... *)
Lemma secret_parity_flip_last (nbits : nat) (constant_c : list Z) (j : nat) :
  secret_parity nbits constant_c (flip_last j) = secret_parity nbits constant_c j.
Proof.
  unfold secret_parity. f_equal. apply map_ext_in. intros idx Hin.
  apply in_seq in Hin. rewrite qubit_flip_last by lia. reflexivity.
Qed.

(** ... so the oracle map is its own inverse, ... *)
Lemma oracle_image_involutive (nbits : nat) (constant_c : list Z) (j : nat) :
  oracle_image nbits constant_c (oracle_image nbits constant_c j) = j.
Proof.
  unfold oracle_image.
  destruct (secret_parity nbits constant_c j) eqn:E.
  - rewrite secret_parity_flip_last, E. apply flip_last_involutive.
  - now rewrite E.
Qed.

(** ... and stays within the basis. *)
Lemma oracle_image_bound (nbits : nat) (constant_c : list Z) (j : nat) :
  1 <= nbits -> j < 2 ^ nbits -> oracle_image nbits constant_c j < 2 ^ nbits.
Proof.
  intros Hn Hj. unfold oracle_image.
  destruct (secret_parity nbits constant_c j); [|exact Hj].
  destruct nbits as [|n]; [lia|].
  rewrite Nat.pow_succ_r' in *. now apply flip_last_bound.
Qed.

(** X5. The operator [make_u] returns is a permutation matrix for the
    exact test of the Tensor class and is Hermitian: [is_permutation]
    is 1 and [is_hermitian] is true on it. *)
Theorem make_u_is_hermitian_permutation (nbits : nat) (constant_c : list Z) :
  length constant_c = nbits - 1 ->
  exists op,
    make_u (N := complex64) nbits constant_c = Ok op /\
    is_permutation op = Ok 1%Z /\
    is_hermitian op = Ok true.
Proof.
  intros Hlen.
  destruct (make_u_action (N := complex64) nbits constant_c Hlen)
    as (op & Hrun & Hperm).
  exists op. split; [exact Hrun|]. split.
  - apply permutation_passes_is_permutation
      with (n := 2 ^ nbits) (p := oracle_image nbits constant_c)
           (q := oracle_image nbits constant_c); [exact Hperm|].
    intros i Hi. split; [|apply oracle_image_involutive].
    destruct Hperm as (_ & Hr & _). now apply Hr.
  - apply (involution_is_hermitian Hperm).
    intros j _. apply oracle_image_involutive.
Qed.

Lemma make_u_is_hermitian_permutation_witness :
  exists op,
    make_u (N := complex64) 3 [1%Z; 1%Z] = Ok op /\
    is_permutation op = Ok 1%Z /\
    is_hermitian op = Ok true.
Proof.
  apply (@make_u_is_hermitian_permutation 3 [1%Z; 1%Z]). reflexivity.
Defined.

(** X6. The oracle is its own inverse: the matrix product of the
    operator [make_u] returns with itself is close, in the sense of
    [is_close], to the identity on [nbits] qubits. *)
Theorem make_u_self_inverse (nbits : nat) (constant_c : list Z) :
  length constant_c = nbits - 1 ->
  exists op sq,
    make_u (N := complex64) nbits constant_c = Ok op /\
    np_matmul op op = Ok sq /\
    is_close sq (Identity nbits) = Ok true.
Proof.
  intros Hlen.
  destruct (make_u_action (N := complex64) nbits constant_c Hlen)
    as (op & Hrun & Hperm).
  destruct (@involution_squares_to_identity _ _ op nbits
              (oracle_image nbits constant_c) Hperm)
    as (sq & Hsq & Hclose).
  - intros j _. apply oracle_image_involutive.
  - exists op, sq. auto.
Qed.

Lemma make_u_self_inverse_witness :
  exists op sq,
    make_u (N := complex64) 3 [1%Z; 1%Z] = Ok op /\
    np_matmul op op = Ok sq /\
    is_close sq (Identity 3) = Ok true.
Proof.
  apply (@make_u_self_inverse 3 [1%Z; 1%Z]). reflexivity.
Defined.

(* ================================================================= *)
(** * make_oracle_f *)

(** The loop of [f] once the entries [pre] of the secret are behind. *)
Lemma oracle_f_loop (bit_string : list Z) :
  forall (pre c : list Z) (val : Z),
    length bit_string <= length c ->
    for_each (combine (seq (length pre) (length bit_string)) bit_string)
      (fun iv val =>
         let '(idx, v) := iv in
         ci <- py_getitem (pre ++ c) idx ;;
         Ok (val + ci * v)%Z)
      val = Ok (val + dot_product c bit_string)%Z.
Proof.
  induction bit_string as [|v rest IH]; intros pre c val Hlen; simpl.
  - destruct c; simpl; f_equal; lia.
  - destruct c as [|ci c]; simpl in Hlen; [lia|].
    unfold py_getitem at 1.
    rewrite nth_error_app2, Nat.sub_diag by lia. simpl.
    replace (pre ++ ci :: c) with ((pre ++ [ci]) ++ c)
      by (now rewrite <- app_assoc).
    replace (S (length pre)) with (length (pre ++ [ci]))
      by (rewrite length_app; simpl; lia).
    rewrite IH by lia. f_equal. lia.
Qed.

Lemma oracle_f_loop_short (bit_string : list Z) :
  forall (pre c : list Z) (val : Z),
    length c < length bit_string ->
    for_each (combine (seq (length pre) (length bit_string)) bit_string)
      (fun iv val =>
         let '(idx, v) := iv in
         ci <- py_getitem (pre ++ c) idx ;;
         Ok (val + ci * v)%Z)
      val = Raise IndexError.
Proof.
  induction bit_string as [|v rest IH]; intros pre c val Hlen; simpl in *.
  - lia.
  - unfold py_getitem at 1. destruct c as [|ci c]; simpl in Hlen.
    + replace (nth_error (pre ++ []) (length pre)) with (@None Z)
        by (symmetry; apply nth_error_None; rewrite app_nil_r; lia).
      reflexivity.
    + rewrite nth_error_app2, Nat.sub_diag by lia. simpl.
      replace (pre ++ ci :: c) with ((pre ++ [ci]) ++ c)
        by (now rewrite <- app_assoc).
      replace (S (length pre)) with (length (pre ++ [ci]))
        by (rewrite length_app; simpl; lia).
      apply IH. lia.
Qed.

Lemma make_oracle_f_value (c bit_string : list Z) :
  length bit_string <= length c ->
  make_oracle_f c bit_string = Ok (dot_product c bit_string mod 2)%Z.
Proof.
  intros Hlen. unfold make_oracle_f, enumerate.
  pose proof (oracle_f_loop bit_string [] c 0%Z Hlen) as H.
  cbn [length app] in H. rewrite H. reflexivity.
Qed.

(** X7. The function [make_oracle_f(c)] returns raises [IndexError]
    when its argument is longer than [c]; otherwise it returns the dot
    product of [c] with the argument modulo 2, which is 0 or 1 whatever
    the integers are (entries of [c] past the argument are not read). *)
Theorem make_oracle_f_result (c bit_string : list Z) :
  (length c < length bit_string ->
   make_oracle_f c bit_string = Raise IndexError) /\
  (length bit_string <= length c ->
   exists r, make_oracle_f c bit_string = Ok r /\
             r = (dot_product c bit_string mod 2)%Z /\ is_bit r).
Proof.
  split.
  - intros Hlen. unfold make_oracle_f, enumerate.
    pose proof (oracle_f_loop_short bit_string [] c 0%Z Hlen) as H.
    cbn [length app] in H. rewrite H. reflexivity.
  - intros Hlen. eexists. split; [now apply make_oracle_f_value|].
    split; [reflexivity|].
    unfold is_bit.
    pose proof (Z.mod_pos_bound (dot_product c bit_string) 2). lia.
Qed.

Lemma make_oracle_f_result_witness :
  make_oracle_f [1%Z; 0%Z] [1%Z; 1%Z; 1%Z] = Raise IndexError.
Proof.
  apply (proj1 (make_oracle_f_result [1%Z; 0%Z] [1%Z; 1%Z; 1%Z])). simpl. lia.
Defined.

(** Congruence modulo 2 is equality of parities. *)
Lemma mod2_odd (a b : Z) : (a mod 2 = b mod 2)%Z <-> Z.odd a = Z.odd b.
Proof.
  rewrite !Zmod_odd. destruct (Z.odd a), (Z.odd b); split;
    intros; try reflexivity; discriminate.
Qed.

Lemma odd_mod2 (a : Z) : Z.odd (a mod 2) = Z.odd a.
Proof. rewrite Zmod_odd. now destruct (Z.odd a). Qed.

Lemma dot_product_xor (c : list Z) :
  forall x y : list Z,
    length x = length y ->
    Z.odd (dot_product c (xor_bits x y)) =
    xorb (Z.odd (dot_product c x)) (Z.odd (dot_product c y)).
Proof.
  induction c as [|ci c IH]; intros x y Hlen; [reflexivity|].
  destruct x as [|a x], y as [|b y]; simpl in Hlen; try discriminate;
    [reflexivity|].
  unfold xor_bits in *. simpl.
  rewrite !Z.odd_add, !Z.odd_mul, odd_mod2, Z.odd_add, IH by lia.
  destruct (Z.odd ci), (Z.odd a), (Z.odd b),
    (Z.odd (dot_product c x)), (Z.odd (dot_product c y)); reflexivity.
Qed.

Lemma length_xor_bits (x y : list Z) :
  length x = length y -> length (xor_bits x y) = length x.
Proof.
  intros H. unfold xor_bits. rewrite length_map, length_combine. lia.
Qed.

(** X8. The oracle function is linear over the bits: on two tuples of
    one length, no longer than [c], its value at their bitwise sum
    modulo 2 is the sum modulo 2 of its values. *)
Theorem make_oracle_f_linear (c x y : list Z) :
  length x = length y -> length x <= length c ->
  exists rx ry,
    make_oracle_f c x = Ok rx /\ make_oracle_f c y = Ok ry /\
    make_oracle_f c (xor_bits x y) = Ok ((rx + ry) mod 2)%Z.
Proof.
  intros Hxy Hlen.
  exists (dot_product c x mod 2)%Z, (dot_product c y mod 2)%Z.
  rewrite !make_oracle_f_value by (rewrite ?length_xor_bits; lia).
  repeat split. f_equal. apply mod2_odd.
  rewrite dot_product_xor by assumption.
  now rewrite Z.odd_add, !odd_mod2.
Qed.

Lemma make_oracle_f_linear_witness :
  exists rx ry,
    make_oracle_f [1%Z; 1%Z; 0%Z] [1%Z; 0%Z; 1%Z] = Ok rx /\
    make_oracle_f [1%Z; 1%Z; 0%Z] [1%Z; 1%Z; 1%Z] = Ok ry /\
    make_oracle_f [1%Z; 1%Z; 0%Z] (xor_bits [1%Z; 0%Z; 1%Z] [1%Z; 1%Z; 1%Z])
      = Ok ((rx + ry) mod 2)%Z.
Proof.
  apply (@make_oracle_f_linear [1%Z; 1%Z; 0%Z] [1%Z; 0%Z; 1%Z] [1%Z; 1%Z; 1%Z]);
    [reflexivity | simpl; lia].
Defined.

Lemma dot_product_unit (c : list Z) :
  forall s n i : nat,
    n <= length c ->
    dot_product c (map (fun k => Z.b2z (Nat.eqb k i)) (seq s n)) =
    if Nat.leb s i && Nat.ltb i (s + n) then nth (i - s) c 0%Z else 0%Z.
Proof.
  induction c as [|ci c IH]; intros s n i Hn; simpl in Hn.
  - replace n with 0 by lia. simpl.
    destruct (Nat.leb_spec s i), (Nat.ltb_spec i (s + 0));
      cbn [andb]; try lia; reflexivity.
  - destruct n as [|n]; simpl.
    + destruct (Nat.leb_spec s i), (Nat.ltb_spec i (s + 0));
        cbn [andb]; try lia; reflexivity.
    + rewrite IH by lia.
      destruct (Nat.eqb_spec s i) as [->|Hne].
      * rewrite Nat.sub_diag.
        destruct (Nat.leb_spec (S i) i), (Nat.leb_spec i i),
                 (Nat.ltb_spec i (i + S n)); cbn [andb Z.b2z]; try lia.
      * destruct (Nat.leb_spec (S s) i), (Nat.ltb_spec i (S s + n)),
                 (Nat.leb_spec s i), (Nat.ltb_spec i (s + S n));
          cbn [andb Z.b2z]; try lia.
        replace (i - s) with (S (i - S s)) by lia. simpl. lia.
Qed.

(** X9. One query per entry recovers the secret classically: on the
    tuple with a single 1, at [i], the oracle function returns
    [c[i] % 2]. *)
Theorem make_oracle_f_unit_query (c : list Z) (n i : nat) :
  i < n -> n <= length c ->
  make_oracle_f c (unit_bits n i) = Ok (nth i c 0%Z mod 2)%Z.
Proof.
  intros Hi Hn. unfold unit_bits.
  rewrite make_oracle_f_value by (now rewrite length_map, length_seq).
  rewrite dot_product_unit by assumption.
  destruct (Nat.leb_spec 0 i), (Nat.ltb_spec i (0 + n)); cbn [andb]; try lia.
  now rewrite Nat.sub_0_r.
Qed.

Lemma make_oracle_f_unit_query_witness :
  make_oracle_f [1%Z; 0%Z; 1%Z] (unit_bits 3 2) = Ok (nth 2 [1%Z; 0%Z; 1%Z] 0%Z mod 2)%Z.
Proof.
  apply (@make_oracle_f_unit_query [1%Z; 0%Z; 1%Z] 3 2); simpl; lia.
Defined.

(* ================================================================= *)
(** * The two oracles encode one function *)

(** The parity of the dot product with a secret of bits, accumulated as
    the loop of [make_u] accumulates it. *)
Lemma dot_product_parity (g : nat -> bool) (c : list Z) :
  forall (s : nat) (b : bool),
    Forall is_bit c ->
    fold_left xorb
      (map (fun idx => truthy (nth (idx - s) c 0%Z) && g idx)
           (seq s (length c)))
      b =
    xorb b (Z.odd (dot_product c (map (fun idx => Z.b2z (g idx))
                                      (seq s (length c))))).
Proof.
  induction c as [|ci c IH]; intros s b Hc; simpl.
  - now rewrite xorb_false_r.
  - inversion Hc as [|? ? Hci Hc']; subst.
    rewrite Nat.sub_diag. simpl nth.
    rewrite (map_ext_in
               (fun idx => truthy (nth (idx - s) (ci :: c) 0%Z) && g idx)
               (fun idx => truthy (nth (idx - S s) c 0%Z) && g idx)).
    2:{ intros idx Hin. apply in_seq in Hin.
        replace (idx - s) with (S (idx - S s)) by lia. reflexivity. }
    rewrite IH by assumption.
    rewrite Z.odd_add, Z.odd_mul.
    destruct Hci as [-> | ->], (g s), b,
      (Z.odd (dot_product c (map (fun idx => Z.b2z (g idx)) (seq (S s) (length c)))));
      reflexivity.
Qed.

Lemma make_oracle_f_parity (nbits : nat) (c : list Z) (j : nat) :
  Forall is_bit c -> length c = nbits - 1 ->
  make_oracle_f c (input_bits nbits j) = Ok (Z.b2z (secret_parity nbits c j)).
Proof.
  intros Hc Hlen. unfold input_bits.
  rewrite make_oracle_f_value by (rewrite length_map, length_seq; lia).
  f_equal. rewrite Zmod_odd. unfold secret_parity. rewrite <- Hlen.
  rewrite (map_ext (fun idx => truthy (nth idx c 0%Z) && qubit nbits idx j)
             (fun idx => truthy (nth (idx - 0) c 0%Z) && qubit nbits idx j))
    by (intros idx; now rewrite Nat.sub_0_r).
  rewrite (dot_product_parity (fun idx => qubit nbits idx j) 0 false Hc).
  simpl xorb. now destruct (Z.odd _).
Qed.

(** X10. The two constructions agree.  For a secret [c] of [nbits - 1]
    bits, the operator of [make_u(nbits, c)] sends the basis state [j]
    to [j] with its last qubit negated exactly when the function of
    [make_oracle_f(c)] returns 1 on the first [nbits - 1] qubits of
    [j]: column [j] has its 1 in that row and zeros elsewhere. *)
Theorem make_u_matches_oracle_f (nbits : nat) (c : list Z) :
  Forall is_bit c -> length c = nbits - 1 ->
  exists op,
    make_u (N := complex64) nbits c = Ok op /\
    forall j, j < 2 ^ nbits ->
      exists r,
        make_oracle_f c (input_bits nbits j) = Ok r /\
        forall i, i < 2 ^ nbits ->
          ceqb (item op [i; j])
               (if Nat.eqb i (if Z.eqb r 1 then flip_last j else j)
                then cone else czero) = true.
Proof.
  intros Hc Hlen.
  destruct (make_u_action (N := complex64) nbits c Hlen)
    as (op & Hrun & _ & _ & _ & Hit).
  exists op. split; [exact Hrun|]. intros j Hj.
  exists (Z.b2z (secret_parity nbits c j)).
  split; [now apply make_oracle_f_parity|].
  intros i Hi. specialize (Hit i j Hi Hj). unfold oracle_image in Hit.
  destruct (secret_parity nbits c j); simpl Z.b2z; simpl Z.eqb; cbv iota;
    destruct (Nat.eqb i _); exact Hit.
Qed.

Lemma make_u_matches_oracle_f_witness :
  exists op,
    make_u (N := complex64) 3 [1%Z; 1%Z] = Ok op /\
    forall j, j < 2 ^ 3 ->
      exists r,
        make_oracle_f [1%Z; 1%Z] (input_bits 3 j) = Ok r /\
        forall i, i < 2 ^ 3 ->
          ceqb (item op [i; j])
               (if Nat.eqb i (if Z.eqb r 1 then flip_last j else j)
                then cone else czero) = true.
Proof.
  apply (@make_u_matches_oracle_f 3 [1%Z; 1%Z]); [|reflexivity].
  apply Forall_cons; [right; reflexivity|].
  apply Forall_cons; [right; reflexivity|]. apply Forall_nil.
Defined.

(* ================================================================= *)
(** * is_unitary by shape *)

Section UnitaryByShape.
Context {N : Numeric}.

Lemma broadcast_square_none (n m : nat) :
  broadcast_shapes [n; n] [m; m] = None <-> n <> m /\ n <> 1 /\ m <> 1.
Proof.
  unfold broadcast_shapes; simpl.
  destruct (Nat.eqb_spec n m), (Nat.eqb_spec n 1), (Nat.eqb_spec m 1);
    simpl; split; try discriminate; try reflexivity; intros; lia.
Qed.

Lemma is_close_total_or_value_error (a b : Tensor) :
  is_close a b = Raise ValueError \/ exists r, is_close a b = Ok r.
Proof.
  unfold is_close, np_allclose.
  destruct (broadcast_shapes _ _); [right; eexists; reflexivity | now left].
Qed.

(** X11. Where [is_unitary] raises, by the shape of the Tensor: on a
    0-d Tensor always ([np.matmul] refuses it); on a vector never; on an
    m-by-n matrix exactly when [m <> n] and neither is 1, and then a
    [ValueError].  On the other matrices, square or not, it returns a
    boolean. *)
Theorem is_unitary_raises (a : Tensor) :
  (shape a = [] -> is_unitary a = Raise ValueError) /\
  (forall k, shape a = [k] -> exists b, is_unitary a = Ok b) /\
  (forall m n, shape a = [m; n] ->
     (is_unitary a = Raise ValueError <-> m <> n /\ m <> 1 /\ n <> 1) /\
     (is_unitary a = Raise ValueError \/ exists b, is_unitary a = Ok b)).
Proof.
  split; [|split].
  - intros Hs. unfold is_unitary, np_matmul. simpl. rewrite Hs. reflexivity.
  - intros k Hs. unfold is_unitary, np_matmul. simpl. rewrite Hs. simpl.
    rewrite Nat.eqb_refl. simpl. unfold is_close, np_allclose. simpl.
    eexists; reflexivity.
  - intros m n Hs.
    rewrite (is_unitary_matrix a Hs (gram_matrix a Hs)).
    split; [|apply is_close_total_or_value_error].
    unfold is_close, np_allclose. simpl shape.
    destruct (broadcast_shapes [n; n] [m; m]) eqn:E.
    + split; [discriminate|]. intros (H1 & H2 & H3).
      assert (E' : broadcast_shapes [n; n] [m; m] = None)
        by (apply broadcast_square_none; repeat split; auto).
      congruence.
    + split; [|reflexivity]. intros _.
      apply broadcast_square_none in E. destruct E as (H1 & H2 & H3).
      repeat split; auto.
Qed.
End UnitaryByShape.

Lemma is_unitary_raises_witness :
  (is_unitary (N := complex64) (np_zeros [0; 2]) = Raise ValueError <->
   0 <> 2 /\ 0 <> 1 /\ 2 <> 1) /\
  (is_unitary (N := complex64) (np_zeros [0; 2]) = Raise ValueError \/
   exists b, is_unitary (N := complex64) (np_zeros [0; 2]) = Ok b).
Proof.
  apply (proj2 (proj2 (@is_unitary_raises complex64 (np_zeros [0; 2]))) 0 2).
  reflexivity.
Defined.

Section RowOfOnes.
Context {N : Numeric} {B : BitArithmetic}.

Lemma broadcast_square_unit (n : nat) :
  broadcast_shapes [n; n] [1; 1] = Some [n; n].
Proof.
  unfold broadcast_shapes; simpl.
  destruct (Nat.eqb_spec n 1) as [->|_]; reflexivity.
Qed.

Lemma row_of_ones_is_unitary (a : Tensor) (n : nat) :
  shape a = [1; n] ->
  (forall j, j < n -> is_one (item a [0; j])) ->
  is_unitary a = Ok true.
Proof.
  intros Hs Hones.
  rewrite (is_unitary_matrix a Hs (gram_matrix a Hs)).
  unfold is_close, np_allclose. simpl shape.
  rewrite broadcast_square_unit. f_equal.
  apply forallb_indices2. intros i j Hi Hj.
  rewrite bindex_inside by (repeat constructor; assumption).
  simpl. apply close_one; [|apply one_is_one].
  unfold csum. simpl. apply add_zero_one; [apply zero_is_zero|].
  apply mul_one_one; [apply conj_one|]; auto.
Qed.
End RowOfOnes.

(** X12. [is_unitary] accepts matrices that are not square: it is true
    of every 1-by-n matrix whose entries are all 1, the n-by-n product
    of ones being compared with the 1-by-1 identity by broadcasting. *)
Theorem is_unitary_accepts_row_of_ones (a : Tensor (N := complex64)) (n : nat) :
  shape a = [1; n] ->
  (forall j, j < n -> ceqb (item a [0; j]) cone = true) ->
  is_unitary a = Ok true.
Proof. apply row_of_ones_is_unitary. Qed.

Lemma is_unitary_accepts_row_of_ones_witness :
  is_unitary (N := complex64) (matrix_of [[cone; cone; cone]]) = Ok true.
Proof.
  apply (@is_unitary_accepts_row_of_ones (matrix_of [[cone; cone; cone]]) 3).
  - reflexivity.
  - intros [|[|[|j]]] Hj; try lia; vm_compute; reflexivity.
Defined.

(* ================================================================= *)
(** * The shape of a Kronecker power *)

Section PowShape.
Context {N : Numeric}.

Lemma combine_map_self {A B : Type} (f : A -> B) (l : list A) :
  combine (map f l) l = map (fun x => (f x, x)) l.
Proof. induction l as [|x l IH]; simpl; [reflexivity | now rewrite IH]. Qed.

Lemma kron_power_shape (a t : Tensor) (e : nat) :
  shape t = map (fun d => d ^ e) (shape a) ->
  shape (kron t a) = map (fun d => d ^ S e) (shape a).
Proof.
  intros Ht. unfold kron, Tensor_new, np_kron, ndim. simpl shape.
  rewrite Ht, length_map, Nat.max_id. unfold pad_shape.
  rewrite length_map, Nat.sub_diag. simpl.
  rewrite combine_map_self, map_map. apply map_ext. intros d. simpl. lia.
Qed.

Lemma kron_fold_shape (a : Tensor) (m : nat) :
  forall (t : Tensor) (e : nat),
    shape t = map (fun d => d ^ e) (shape a) ->
    shape (fold_left kron (repeat a m) t) = map (fun d => d ^ (e + m)) (shape a).
Proof.
  induction m as [|m IH]; intros t e Ht; simpl.
  - now rewrite Nat.add_0_r.
  - rewrite (IH (kron t a) (S e)) by now apply kron_power_shape.
    apply map_ext. intros d. f_equal. lia.
Qed.

(** X13. For [k >= 1] the Tensor [pow(a, k)] has the dimensions of [a],
    and each extent is the k-th power of that of [a]: a [2^n]-dimensional
    operator gives a [2^(n k)]-dimensional one. *)
Theorem pow_shape (a : Tensor) (k : Z) :
  (1 <= k)%Z ->
  exists t, pow a k = PyTensor t /\
            shape t = map (fun d => d ^ Z.to_nat k) (shape a).
Proof.
  intros Hk. rewrite (pow_positive a Hk). eexists. split; [reflexivity|].
  rewrite (@kron_fold_shape a (Z.to_nat (k - 1)) a 1).
  - apply map_ext. intros d. f_equal. lia.
  - rewrite <- (map_id (shape a)) at 1. apply map_ext. intros d. simpl. lia.
Qed.
End PowShape.

Lemma pow_shape_witness :
  exists t, pow (N := complex64) (Cnot 0 1) 3 = PyTensor t /\
            shape t = map (fun d => d ^ Z.to_nat 3) (shape (Cnot (N := complex64) 0 1)).
Proof.
  apply (@pow_shape complex64 (Cnot 0 1) 3%Z). lia.
Defined.

(* ================================================================= *)
(** * check_result *)

Lemma lit_0_1_nearest :
  lit_0_1 = PyFloat.div (PyFloat.of_Z 1) (PyFloat.of_Z 10).
Proof. vm_compute. reflexivity. Qed.

Lemma in_bitprod (nbits : nat) (bits : list Z) :
  In bits (bitprod nbits) <-> length bits = nbits /\ Forall is_bit bits.
Proof.
  revert bits. induction nbits as [|n IH]; intros bits; simpl.
  - split.
    + intros [<-|[]]. split; [reflexivity | constructor].
    + intros [Hlen _]. left. destruct bits; [reflexivity | discriminate].
  - rewrite app_nil_r, in_app_iff, !in_map_iff. split.
    + intros [(t & <- & Ht)|(t & <- & Ht)]; apply IH in Ht as [Hlen Hb];
        (split; [simpl; now rewrite Hlen|]);
        constructor; try assumption; [left | right]; reflexivity.
    + intros [Hlen Hb]. destruct bits as [|b t]; [discriminate|].
      inversion Hb as [|? ? Hbit Ht]; subst. simpl in Hlen.
      assert (Hin : In t (bitprod n)) by (apply IH; split; [lia | assumption]).
      destruct Hbit as [-> | ->]; [left | right]; exists t; auto.
Qed.

Lemma tuple_eqb_eq (t c : list Z) : tuple_eqb t c = true <-> t = c.
Proof.
  unfold tuple_eqb. destruct (list_eq_dec Z.eq_dec t c); split;
    intros; try assumption; try reflexivity; try discriminate; contradiction.
Qed.

(** The loop passes exactly when every configuration above the
    threshold has the expected prefix; it prints them in order. *)
Lemma check_loop_passes (c : list Z) (psi : State) (todo : list (list Z)) :
  forall out : list output,
    (snd (check_loop c psi todo out) = Ok tt <->
     forall bits, In bits todo ->
       PyFloat.ltb lit_0_1 (prob psi bits) = true -> removelast bits = c) /\
    (snd (check_loop c psi todo out) = Ok tt \/
     snd (check_loop c psi todo out) = Raise AssertionError) /\
    (snd (check_loop c psi todo out) = Ok tt ->
     fst (check_loop c psi todo out) =
     out ++ map (fun bits => Found c (prob psi bits))
              (filter (fun bits => PyFloat.ltb lit_0_1 (prob psi bits)) todo)).
Proof.
  induction todo as [|bits rest IH]; intros out; simpl.
  - split; [|split].
    + split; [intros _ ? [] | reflexivity].
    + now left.
    + intros _. now rewrite app_nil_r.
  - destruct (PyFloat.ltb lit_0_1 (prob psi bits)) eqn:Hp.
    + destruct (tuple_eqb (removelast bits) c) eqn:Heq.
      * apply tuple_eqb_eq in Heq.
        destruct (IH (out ++ [Found (removelast bits) (prob psi bits)]))
          as (Hiff & Htot & Hout).
        split; [|split].
        -- rewrite Hiff. split.
           ++ intros H b [<-|Hin] Hb; auto.
           ++ intros H b Hin Hb. apply H; auto.
        -- exact Htot.
        -- intros Hok. rewrite (Hout Hok), <- app_assoc, Heq. reflexivity.
      * simpl. split; [|split].
        -- split; [discriminate|]. intros H.
           assert (E : removelast bits = c) by (apply H; auto).
           apply tuple_eqb_eq in E. congruence.
        -- now right.
        -- discriminate.
    + destruct (IH out) as (Hiff & Htot & Hout).
      split; [|split]; [|exact Htot|exact Hout].
      rewrite Hiff. split.
      * intros H b [<-|Hin] Hb; [congruence | auto].
      * intros H b Hin Hb. apply H; auto.
Qed.

(** X14. [check_result] returns without raising exactly when every
    tuple of [nbits] bits whose probability exceeds 0.1 is the secret
    followed by one more bit; otherwise it raises [AssertionError], and
    nothing else.  When it returns it has printed the expected secret
    and then one line for each such tuple, in the order of
    [helper.bitprod]. *)
Theorem check_result_passes (nbits : nat) (c : list Z) (psi : State) :
  (snd (check_result nbits c psi) = Ok tt <->
   forall bits, length bits = nbits -> Forall is_bit bits ->
     PyFloat.ltb lit_0_1 (prob psi bits) = true -> removelast bits = c) /\
  (snd (check_result nbits c psi) = Ok tt \/
   snd (check_result nbits c psi) = Raise AssertionError) /\
  (snd (check_result nbits c psi) = Ok tt ->
   fst (check_result nbits c psi) =
   Expect c :: map (fun bits => Found c (prob psi bits))
                 (filter (fun bits => PyFloat.ltb lit_0_1 (prob psi bits))
                         (bitprod nbits))).
Proof.
  unfold check_result.
  destruct (check_loop_passes c psi (bitprod nbits) [Expect c])
    as (Hiff & Htot & Hout).
  split; [|split]; [|exact Htot|exact Hout].
  rewrite Hiff. split.
  - intros H bits Hlen Hb. apply H, in_bitprod. auto.
  - intros H bits Hin. apply in_bitprod in Hin as [Hlen Hb]. auto.
Qed.

Lemma check_result_passes_witness :
  fst (check_result 3 [1%Z; 0%Z] (basis_state [1%Z; 0%Z; 1%Z])) =
  Expect [1%Z; 0%Z]
    :: map (fun bits => Found [1%Z; 0%Z] (prob (basis_state [1%Z; 0%Z; 1%Z]) bits))
         (filter (fun bits => PyFloat.ltb lit_0_1
                                (prob (basis_state [1%Z; 0%Z; 1%Z]) bits))
                 (bitprod 3)).
Proof.
  apply (proj2 (proj2 (check_result_passes 3 [1%Z; 0%Z]
                         (basis_state [1%Z; 0%Z; 1%Z])))).
  vm_compute. reflexivity.
Defined.

(** With the secret (1, 0): the state in 101 passes and one line is
    printed for it; the state in 011 fails the assertion. *)
Example check_result_small :
  check_result 3 [1%Z; 0%Z] (basis_state [1%Z; 0%Z; 1%Z]) =
    ([Expect [1%Z; 0%Z]; Found [1%Z; 0%Z] PyFloat.one], Ok tt) /\
  snd (check_result 3 [1%Z; 0%Z] (basis_state [0%Z; 1%Z; 1%Z])) =
    Raise AssertionError.
Proof. split; vm_compute; reflexivity. Qed.

(* ================================================================= *)
(** * The Kronecker product of three matrices *)

Lemma div_div_swap (i n2 n3 : nat) : i / n3 / n2 = i / (n2 * n3).
Proof. rewrite Nat.Div0.div_div. f_equal. lia. Qed.

Lemma mod_mul_div (i n2 n3 : nat) : i mod (n2 * n3) / n3 = i / n3 mod n2.
Proof.
  destruct n3 as [|k]; [cbn [Nat.div]; now rewrite Nat.Div0.mod_0_l|].
  rewrite (Nat.mul_comm n2), Nat.Div0.mod_mul_r.
  rewrite (Nat.mul_comm (S k)), Nat.div_add by lia.
  rewrite Nat.div_small by (apply Nat.mod_upper_bound; lia). reflexivity.
Qed.

Lemma mod_mul_mod (i n2 n3 : nat) : i mod (n2 * n3) mod n3 = i mod n3.
Proof.
  destruct n3 as [|k]; [now rewrite Nat.mul_0_r|].
  rewrite (Nat.mul_comm n2), Nat.Div0.mod_mul_r.
  rewrite (Nat.mul_comm (S k)), Nat.Div0.mod_add.
  apply Nat.Div0.mod_mod.
Qed.

Section KronAssociativity.
Context {N : Numeric}.

(** X15. The Kronecker product of three matrices has one shape
    whichever way it is bracketed, and at each index both bracketings
    multiply the same three elements of [a], [b] and [c], associated to
    the left in [(a * b) * c] and to the right in [a * (b * c)]. *)
Theorem kron_associative (a b c : Tensor) (n1 m1 n2 m2 n3 m3 : nat) :
  shape a = [n1; m1] -> shape b = [n2; m2] -> shape c = [n3; m3] ->
  shape (kron (kron a b) c) = shape (kron a (kron b c)) /\
  forall i j,
    let x := item a [i / (n2 * n3); j / (m2 * m3)] in
    let y := item b [i / n3 mod n2; j / m3 mod m2] in
    let z := item c [i mod n3; j mod m3] in
    item (kron (kron a b) c) [i; j] = cmul (cmul x y) z /\
    item (kron a (kron b c)) [i; j] = cmul x (cmul y z).
Proof.
  intros Ha Hb Hc. unfold kron, Tensor_new.
  destruct (np_kron_2d a b Ha Hb) as [Hab Iab].
  destruct (np_kron_2d b c Hb Hc) as [Hbc Ibc].
  destruct (np_kron_2d (np_kron a b) c Hab Hc) as [Hl Il].
  destruct (np_kron_2d a (np_kron b c) Ha Hbc) as [Hr Ir].
  split.
  - rewrite Hl, Hr. f_equal; [|f_equal]; lia.
  - intros i j. cbv zeta. rewrite Il, Iab, Ir, Ibc.
    rewrite !div_div_swap, !mod_mul_div, !mod_mul_mod. split; reflexivity.
Qed.
End KronAssociativity.

Lemma kron_associative_witness :
  shape (kron (N := complex64) (kron (Cnot 0 1) (Identity 1)) near_identity) =
  shape (kron (N := complex64) (Cnot 0 1) (kron (Identity 1) near_identity)).
Proof.
  apply (@kron_associative complex64 (Cnot 0 1) (Identity 1) near_identity
           4 4 2 2 2 2); reflexivity.
Defined.

(* ================================================================= *)
(** * The first two statements of run_experiment *)

Lemma make_c_length (n : nat) (g : rng) :
  exists c g', make_c n g = Ok (c, g') /\ length c = n.
Proof.
  destruct n as [|n].
  - exists [], g. split; reflexivity.
  - destruct (make_c_draws n g) as (g' & Hrun & _).
    eexists _, g'. split; [exact Hrun|].
    rewrite length_app, length_map, length_seq. simpl. lia.
Qed.

(** X16. The secret of [make_c] always fits [make_u]: for every
    [nbits] and every state of [np.random], [make_c(nbits - 1)] followed
    by [make_u(nbits, c)], as [run_experiment] calls them, raises
    nothing and gives a [2^nbits]-dimensional operator that passes
    [is_unitary]. *)
Theorem make_c_then_make_u (nbits : nat) (g : rng) :
  exists c g' op,
    make_c (nbits - 1) g = Ok (c, g') /\
    make_u (N := complex64) nbits c = Ok op /\
    shape op = [2 ^ nbits; 2 ^ nbits] /\
    is_unitary op = Ok true.
Proof.
  destruct (make_c_length (nbits - 1) g) as (c & g' & Hc & Hlen).
  destruct (make_u_permutation (N := complex64) nbits c Hlen)
    as (op & p & Hrun & Hperm & Hunit).
  exists c, g', op. repeat split; [exact Hc | exact Hrun | apply Hperm | exact Hunit].
Qed.
